(** * steps-selector-ui: the step-sequence editor and the pop-in dialog

    A shallow embedding of the two web components of the repository,
    [StepsSelector] (steps-selector.ts) and [PopinDialog] (popin-dialog.ts),
    and the properties of their state and interaction logic.

    Conventions of the embedding.
    - A method of a component is a program in the monad [Prog]: it reads and
      writes the component's fields and appends to a trace of the effects
      that leave the component (events dispatched to the host, Lit update
      requests, console messages).
    - A JavaScript [number] used as an array index or as a CSS pixel length
      is an integer of [Z]; the fractional and non-finite numbers are left
      out.
    - [undefined] and [null] are [None]. *)

From Stdlib Require Import ZArith String Bool Lia.
From stdpp Require Import base option list.

Open Scope string_scope.
Open Scope Z_scope.
Open Scope list_scope.

(** ** Programs over a component *)

Module Prog.

Definition Prog (St Ev A : Type) : Type := St -> A * St * list Ev.

Section Ops.
Context {St Ev : Type}.

Definition ret {A} (a : A) : Prog St Ev A := fun s => (a, s, []).

Definition bind {A B} (m : Prog St Ev A) (k : A -> Prog St Ev B)
  : Prog St Ev B :=
  fun s =>
    let '(a, s1, t1) := m s in
    let '(b, s2, t2) := k a s1 in
    (b, s2, t1 ++ t2).

(** Read a field. *)
Definition gets {A} (f : St -> A) : Prog St Ev A := fun s => (f s, s, []).

(** Write the fields. *)
Definition modify (f : St -> St) : Prog St Ev unit := fun s => (tt, f s, []).

(** An effect that leaves the component. *)
Definition emit (e : Ev) : Prog St Ev unit := fun s => (tt, s, [e]).

(** [if (c) { m }] *)
Definition when (c : bool) (m : Prog St Ev unit) : Prog St Ev unit :=
  if c then m else ret tt.

(** The fields after the program. *)
Definition exec {A} (m : Prog St Ev A) (s : St) : St := snd (fst (m s)).

(** The effects of the program, oldest first. *)
Definition trace {A} (m : Prog St Ev A) (s : St) : list Ev := snd (m s).
End Ops.

End Prog.
Import Prog.

Notation "x <- m ;; k" := (bind m (fun x => k))
  (at level 100, m at next level, right associativity).
Notation "m ;; k" := (bind m (fun _ => k))
  (at level 100, right associativity).

(** ** JavaScript arrays *)

Module Js.

Section Array.
Context {A : Type}.

Definition length (l : list A) : Z := Z.of_nat (List.length l).

(** The relative index of [Array.prototype.slice]: a negative index
    counts from the end, and the result is clamped to [0..len]. *)
Definition relative (len k : Z) : Z :=
  if k <? 0 then Z.max (len + k) 0 else Z.min k len.

(** [l.slice(start, end)] *)
Definition slice (l : list A) (start end_ : Z) : list A :=
  let len := length l in
  let k := relative len start in
  let final := relative len end_ in
  take (Z.to_nat (Z.max (final - k) 0)) (drop (Z.to_nat k) l).

(** [l.slice(start)]: [end] is the length of the array. *)
Definition slice_from (l : list A) (start : Z) : list A :=
  slice l start (length l).

(** Whether a value is neither [undefined] nor [null]. *)
Definition defined (o : option A) : bool :=
  match o with
  | Some _ => true
  | None => false
  end.

(** [l.find(p)]: the first element that satisfies [p], or [undefined]. *)
Fixpoint find (p : A -> bool) (l : list A) : option A :=
  match l with
  | [] => None
  | x :: l' => if p x then Some x else find p l'
  end.
End Array.

End Js.

(** ** steps-selector.ts *)

Module Selector.

(** [Object]: the editor never looks inside the options of a step. *)
Inductive Object : Type :=
| Obj (fields : list (string * string)).

Record Step : Type := mkStep {
  name : string;
  icon : string;
  type : string;
  tags : option (list string);
  helpText : option string;
  errorText : option string;
  options : option Object;
  optionsForm : option Object
}.

(** The old value handed to Lit's [requestUpdate]. *)
Inductive PropValue : Type :=
| VBool (b : bool)
| VSteps (l : list Step).

(** What leaves the editor. *)
Inductive Effect : Type :=
| RequestUpdate (prop : string) (oldValue : PropValue)
| DispatchChange (value : list Step)   (* CustomEvent('change', {detail: {value}}) *)
| ConsoleError (message : string).

Record StepsSelector : Type := mkStepsSelector {
  _dirty : bool;
  _steps : list Step;
  initialValue : list Step;
  completion : list Step -> list Step
}.

Definition with_dirty (v : bool) (e : StepsSelector) : StepsSelector :=
  mkStepsSelector v (_steps e) (initialValue e) (completion e).

Definition with_steps (v : list Step) (e : StepsSelector) : StepsSelector :=
  mkStepsSelector (_dirty e) v (initialValue e) (completion e).

Definition with_initialValue (v : list Step) (e : StepsSelector) : StepsSelector :=
  mkStepsSelector (_dirty e) (_steps e) v (completion e).

Abbreviation Editor := (Prog StepsSelector Effect).

(** A new element: [_dirty = false], [_steps = []], [initialValue = []],
    [completion = () => []]. *)
Definition new_StepsSelector : StepsSelector :=
  mkStepsSelector false [] [] (fun _ => []).

(** [get dirty()] *)
Definition dirty : Editor bool := gets _dirty.

(** [protected set dirty(value)] *)
Definition set_dirty (value : bool) : Editor unit :=
  oldValue <- gets _dirty ;;
  modify (with_dirty value) ;;
  emit (RequestUpdate "dirty" (VBool oldValue)).

(** [get steps()] *)
Definition steps : Editor (list Step) := gets _steps.

(** [set steps(value)] *)
Definition set_steps (value : list Step) : Editor unit :=
  oldValue <- gets _steps ;;
  modify (with_steps value) ;;
  emit (RequestUpdate "steps" (VSteps oldValue)) ;;
  emit (DispatchChange value).

(** [setStepAt(at, step)] *)
Definition setStepAt (at_ : Z) (step : option Step) : Editor unit :=
  match step with
  | Some step =>
      before <- steps ;;
      after <- steps ;;
      set_steps (Js.slice before 0 at_ ++ [step] ++ Js.slice_from after (at_ + 1)) ;;
      set_dirty true
  | None =>
      emit (ConsoleError "Step is undefined")
  end.

(** [deleteStepAt(at)] *)
Definition deleteStepAt (at_ : Z) : Editor unit :=
  l <- steps ;;
  set_steps (Js.slice l 0 at_) ;;
  set_dirty true.

(** [save()] *)
Definition save : Editor unit :=
  set_dirty false ;;
  l <- steps ;;
  modify (with_initialValue l).

(** [reset()] *)
Definition reset : Editor unit :=
  set_dirty false ;;
  l <- gets initialValue ;;
  set_steps l.

(** The object built by the first [map] of [render]. *)
Record Entry : Type := mkEntry {
  entry_step : Step;
  entry_completion : list Step
}.

(** One [<steps-selector-item>] of the template, with its two listeners
    and its slots. *)
Record Item : Type := mkItem {
  key : nat;
  no_options_editor : bool;
  on_set : string -> Editor unit;       (* @set, applied to event.detail.value *)
  on_delete : Editor unit;              (* @delete *)
  slot_icon : string;
  slot_name : string;
  slot_tags : list string;
  slot_type : string;
  slot_helpText : option string;
  slot_errorText : option string;
  slot_values : list (string * string)  (* <li value=...>text</li> *)
}.

Record Template : Type := mkTemplate {
  class_dirty : bool;
  dirty_icon : option (Editor unit);    (* the slot and its @click *)
  steps_container : list Item
}.

(** [this.steps.map((step, index) => ({step, completion: ...}))] *)
Definition render_entries (e : StepsSelector) : list Entry :=
  imap (fun index step =>
          mkEntry step (completion e (Js.slice (_steps e) 0 (Z.of_nat index))))
       (_steps e).

(** [.map(({step, completion}, index) => html`<steps-selector-item ...>`)] *)
Definition render_item (index : nat) (entry : Entry) : Item :=
  let step := entry_step entry in
  let completion := entry_completion entry in
  {| key := index;
     no_options_editor := negb (Js.defined (optionsForm step));
     on_set := fun value =>
       setStepAt (Z.of_nat index)
                 (Js.find (fun step => String.eqb (name step) value) completion);
     on_delete := deleteStepAt (Z.of_nat index);
     slot_icon := icon step;
     slot_name := name step;
     slot_tags := default [] (tags step);
     slot_type := type step;
     slot_helpText := helpText step;
     slot_errorText := errorText step;
     slot_values := map (fun step => (name step, name step)) completion |}.

(** [render()] *)
Definition render (e : StepsSelector) : Template :=
  {| class_dirty := _dirty e;
     dirty_icon := if _dirty e then Some reset else None;
     steps_container := imap render_item (render_entries e) |}.

Definition with_completion (v : list Step -> list Step) (e : StepsSelector)
  : StepsSelector :=
  mkStepsSelector (_dirty e) (_steps e) (initialValue e) v.

(** What a host or a listener can do to the element: call one of its four
    methods, or assign one of its public properties ([steps], through its
    setter, [initialValue] and [completion]). The setter of [dirty] is
    protected. *)
Inductive Operation : Type :=
| OpSetStepAt (at_ : Z) (step : option Step)
| OpDeleteStepAt (at_ : Z)
| OpSave
| OpReset
| OpAssignSteps (value : list Step)
| OpAssignInitialValue (value : list Step)
| OpAssignCompletion (value : list Step -> list Step).

Definition run (op : Operation) : Editor unit :=
  match op with
  | OpSetStepAt at_ step => setStepAt at_ step
  | OpDeleteStepAt at_ => deleteStepAt at_
  | OpSave => save
  | OpReset => reset
  | OpAssignSteps value => set_steps value
  | OpAssignInitialValue value => modify (with_initialValue value)
  | OpAssignCompletion value => modify (with_completion value)
  end.

End Selector.

(** ** popin-dialog.ts *)

Module Popin.

(** A [DOMRect], in CSS pixels of the viewport. *)
Record DOMRect : Type := mkDOMRect {
  left : Z;
  top : Z;
  width : Z;
  height : Z
}.

Definition right (r : DOMRect) : Z := left r + width r.
Definition bottom (r : DOMRect) : Z := top r + height r.

(** The two inline style properties the element writes: [None] is the
    empty string, [Some n] is [n] followed by [px]. *)
Record Style : Type := mkStyle {
  style_left : option Z;
  style_top : option Z
}.

(** The reactive property [hidden]: [false] at first, then whatever Lit
    reads from the attribute. *)
Inductive HiddenProperty : Type :=
| HiddenFalse
| HiddenFromAttribute (value : option string).

Record KeyboardEvent : Type := mkKeyboardEvent {
  key : string
}.

(** An event dispatched to the host. *)
Inductive CustomEvent : Type :=
| mkCustomEvent (type : string).

(** What the layout of the page gives the element, which is
    [position: absolute] and has no margin, in CSS pixels of the viewport.
    - [static_left] and [static_top] are where the box of the element is
      when [left] and [top] are not set: its place in the flow of the page.
    - [origin_left] and [origin_top] are where the containing block of the
      element begins: [left] and [top] count from there. On a page that is
      not scrolled, for an element without a positioned ancestor, this is
      (0, 0); on a page scrolled by (x, y) it is (-x, -y); under a
      positioned ancestor it is the padding edge of that ancestor.
    - [box_width] and [box_height] are the size of the box, which depends
      on the [left] offset when the width of the element is not set: the
      element then takes the width that fits between its left edge and the
      end of its containing block ([max-width: 100%]), and its height
      follows from the way its content wraps. *)
Record Layout : Type := mkLayout {
  static_left : Z;
  static_top : Z;
  origin_left : Z;
  origin_top : Z;
  box_width : option Z -> Z;
  box_height : option Z -> Z
}.

(** The element with the part of the page it reads.
    - [attr_hidden] is the [hidden] attribute ([None]: absent);
    - [layout] is what the page gives the element;
    - [focused] says that the element is the active element of the page;
    - [innerWidth] and [innerHeight] are those of [window]. *)
Record PopinDialog : Type := mkPopinDialog {
  attr_hidden : option string;
  hidden : HiddenProperty;
  style : Style;
  layout : Layout;
  focused : bool;
  innerWidth : Z;
  innerHeight : Z
}.

Abbreviation Dialog := (Prog PopinDialog CustomEvent).

Definition with_attr_hidden (v : option string) (p : PopinDialog) : PopinDialog :=
  mkPopinDialog v (hidden p) (style p) (layout p) (focused p)
                (innerWidth p) (innerHeight p).

Definition with_hidden (v : HiddenProperty) (p : PopinDialog) : PopinDialog :=
  mkPopinDialog (attr_hidden p) v (style p) (layout p) (focused p)
                (innerWidth p) (innerHeight p).

Definition with_style (v : Style) (p : PopinDialog) : PopinDialog :=
  mkPopinDialog (attr_hidden p) (hidden p) v (layout p) (focused p)
                (innerWidth p) (innerHeight p).

Definition with_focused (v : bool) (p : PopinDialog) : PopinDialog :=
  mkPopinDialog (attr_hidden p) (hidden p) (style p) (layout p) v
                (innerWidth p) (innerHeight p).

(** [this.style.left = v] and [this.style.top = v] *)
Definition set_style_left (v : option Z) : Dialog unit :=
  modify (fun p => with_style (mkStyle v (style_top (style p))) p).

Definition set_style_top (v : option Z) : Dialog unit :=
  modify (fun p => with_style (mkStyle (style_left (style p)) v) p).

(** The element is displayed when it has no [hidden] attribute
    ([:host([hidden]) { display: none }]). *)
Definition visible (p : PopinDialog) : bool :=
  negb (Js.defined (attr_hidden p)).

(** [this.getBoundingClientRect()], in the frame of the viewport. An
    element that is not displayed has the empty box at the origin. The
    left edge of a displayed one is [style.left] pixels after the
    beginning of its containing block when that offset is set, and at
    its place in the flow otherwise; the same for the top edge. The size
    is the one the layout gives for the [left] offset. *)
Definition getBoundingClientRect (p : PopinDialog) : DOMRect :=
  if visible p then
    {| left := match style_left (style p) with
               | Some offset => origin_left (layout p) + offset
               | None => static_left (layout p)
               end;
       top := match style_top (style p) with
              | Some offset => origin_top (layout p) + offset
              | None => static_top (layout p)
              end;
       width := box_width (layout p) (style_left (style p));
       height := box_height (layout p) (style_left (style p)) |}
  else mkDOMRect 0 0 0 0.

(** The containing block of the element begins where the viewport does:
    the page is not scrolled and the element has no positioned ancestor
    that is away from the corner of the page. *)
Definition aligned (lay : Layout) : Prop :=
  origin_left lay = 0 /\ origin_top lay = 0.

(** The size of the element does not depend on its offsets: its width is
    set, as in [<popin-dialog style="width: 400px">]. *)
Definition fixed_size (lay : Layout) : Prop :=
  forall offset,
    box_width lay offset = box_width lay None /\
    box_height lay offset = box_height lay None.

(** The layout of an element of fixed size that the page puts at the
    place of [r], when its containing block begins at [(x, y)]. *)
Definition fixed_layout (r : DOMRect) (x y : Z) : Layout :=
  mkLayout (left r) (top r) x y (fun _ => width r) (fun _ => height r).

(** [this.focus()]: the element has [tabindex="0"], so it takes the focus
    when it is displayed. No listener of the element hears the focus
    event. *)
Definition focus : Dialog unit :=
  modify (fun p => if visible p then with_focused true p else p).

(** [super.attributeChangedCallback(name, _old, value)]: Lit copies the
    attribute into the reactive property of the same name. *)
Definition lit_attributeChangedCallback (name : string) (_old value : option string)
  : Dialog unit :=
  when (String.eqb name "hidden") (modify (with_hidden (HiddenFromAttribute value))).

(** [attributeChangedCallback(name, _old, value)] *)
Definition attributeChangedCallback (name : string) (_old value : option string)
  : Dialog unit :=
  lit_attributeChangedCallback name _old value ;;
  when (String.eqb name "hidden" && negb (Js.defined value)) focus.

(** [this.setAttribute(name, value)]: of the attributes, the embedding
    keeps [hidden]; the element is told of every write to it. *)
Definition setAttribute (name value : string) : Dialog unit :=
  when (String.eqb name "hidden")
       (old <- gets attr_hidden ;;
        modify (with_attr_hidden (Some value)) ;;
        attributeChangedCallback name old (Some value)).

(** [this.removeAttribute(name)]: nothing happens when the attribute is
    absent. *)
Definition removeAttribute (name : string) : Dialog unit :=
  when (String.eqb name "hidden")
       (old <- gets attr_hidden ;;
        when (Js.defined old)
             (modify (with_attr_hidden None) ;;
              attributeChangedCallback name old None)).

(** [blured()] *)
Definition blured : Dialog unit :=
  setAttribute "hidden" "".

(** The element loses the focus (a click outside, a tab away, or
    [blur()]): the page takes the focus from it and calls [onblur], which
    the constructor sets to [() => this.blured()]. *)
Definition focusout : Dialog unit :=
  modify (with_focused false) ;;
  blured.

(** [this.blur()]: only the active element can lose the focus. *)
Definition blur : Dialog unit :=
  f <- gets focused ;;
  when f focusout.

(** [keydown(event)], the [onkeydown] listener set by the constructor. *)
Definition keydown (event : KeyboardEvent) : Dialog unit :=
  when (String.eqb (key event) "Escape") blur.

(** [ensureElementInView()] *)
Definition ensureElementInView : Dialog unit :=
  set_style_left None ;;
  set_style_top None ;;
  rect <- gets getBoundingClientRect ;;
  viewportWidth <- gets innerWidth ;;
  viewportHeight <- gets innerHeight ;;
  when (right rect >? viewportWidth)
       (set_style_left (Some (viewportWidth - width rect))) ;;
  when (left rect <? 0)
       (set_style_left (Some 0)) ;;
  when (bottom rect >? viewportHeight)
       (set_style_top (Some (viewportHeight - height rect))) ;;
  when (top rect <? 0)
       (set_style_top (Some 0)).

End Popin.

(** ** popin-dialog.ts: the element in its page *)

(** The part of [PopinDialog] that goes through the page: the listener it
    registers on [window], the callbacks it hands to [setTimeout], and its
    [render]. *)
Module Page.
Import Popin.

(** A listener of the [resize] event of [window]:
    [this.ensureElementInView_], the bound method that the element creates
    once, or a listener that some other code of the page has registered. *)
Inductive Listener : Type :=
| EnsureElementInView_
| Foreign (id : nat).

Definition same_listener (a b : Listener) : bool :=
  match a, b with
  | EnsureElementInView_, EnsureElementInView_ => true
  | Foreign i, Foreign j => Nat.eqb i j
  | _, _ => false
  end.

Fixpoint occurrences (l : Listener) (ls : list Listener) : nat :=
  match ls with
  | [] => O
  | x :: ls' => ((if same_listener x l then 1 else 0) + occurrences l ls')%nat
  end.

(** The slots of the template, in the order of [render]. *)
Inductive Slot : Type :=
| SlotHeader
| SlotBody
| SlotDefault
| SlotFooter.

Record Template : Type := mkTemplate {
  header : list Slot;
  main : list Slot;
  footer : list Slot
}.

(** The element, the [resize] listeners of [window] in the order of their
    registration, and the number of callbacks given to [setTimeout] that
    have not run yet; each of them is [() => this.ensureElementInView()]. *)
Record Page : Type := mkPage {
  element : PopinDialog;
  resize_listeners : list Listener;
  timeouts : nat
}.

Abbreviation Host := (Prog Page CustomEvent).

Definition with_element (v : PopinDialog) (pg : Page) : Page :=
  mkPage v (resize_listeners pg) (timeouts pg).

Definition with_resize_listeners (v : list Listener) (pg : Page) : Page :=
  mkPage (element pg) v (timeouts pg).

Definition with_timeouts (v : nat) (pg : Page) : Page :=
  mkPage (element pg) (resize_listeners pg) v.

(** A method of the element, run in the page. *)
Definition lift {A} (m : Dialog A) : Host A :=
  fun pg =>
    let '(a, p, t) := m (element pg) in
    (a, with_element p pg, t).

(** [window.addEventListener('resize', l)]: a listener that is in the
    list already is not added again. *)
Definition addEventListener (l : Listener) : Host unit :=
  modify (fun pg =>
            if (0 <? occurrences l (resize_listeners pg))%nat then pg
            else with_resize_listeners (resize_listeners pg ++ [l]) pg).

Fixpoint remove_first (l : Listener) (ls : list Listener) : list Listener :=
  match ls with
  | [] => []
  | x :: ls' => if same_listener x l then ls' else x :: remove_first l ls'
  end.

(** [window.removeEventListener('resize', l)] *)
Definition removeEventListener (l : Listener) : Host unit :=
  modify (fun pg => with_resize_listeners (remove_first l (resize_listeners pg)) pg).

(** [setTimeout(() => this.ensureElementInView())] *)
Definition setTimeout : Host unit :=
  modify (fun pg => with_timeouts (S (timeouts pg)) pg).

(** [super.connectedCallback()] and [super.disconnectedCallback()]: Lit
    starts and stops its own update cycle; it calls [render] later, as a
    step of its own, and does not touch the listeners of [window]. *)
Definition lit_connectedCallback : Host unit := ret tt.
Definition lit_disconnectedCallback : Host unit := ret tt.

(** [connectedCallback()] *)
Definition connectedCallback : Host unit :=
  lit_connectedCallback ;;
  addEventListener EnsureElementInView_.

(** [disconnectedCallback()] *)
Definition disconnectedCallback : Host unit :=
  removeEventListener EnsureElementInView_ ;;
  lit_disconnectedCallback.

(** [render()] *)
Definition render : Host Template :=
  setTimeout ;;
  ret {| header := [SlotHeader];
         main := [SlotBody; SlotDefault];
         footer := [SlotFooter] |}.

(** The oldest pending callback of [setTimeout] runs. *)
Definition timeout : Host unit :=
  n <- gets timeouts ;;
  match n with
  | O => ret tt
  | S n' => modify (with_timeouts n') ;; lift ensureElementInView
  end.

(** All the pending callbacks run; they schedule no other. *)
Fixpoint run_timeouts (fuel : nat) : Host unit :=
  match fuel with
  | O => ret tt
  | S fuel' => timeout ;; run_timeouts fuel'
  end.

Definition flush : Host unit :=
  n <- gets timeouts ;;
  run_timeouts n.

(** What a listener does when the event reaches it. The listeners of the
    rest of the page are not followed. *)
Definition call (l : Listener) : Host unit :=
  match l with
  | EnsureElementInView_ => lift ensureElementInView
  | Foreign _ => ret tt
  end.

Fixpoint dispatch (ls : list Listener) : Host unit :=
  match ls with
  | [] => ret tt
  | l :: ls' => call l ;; dispatch ls'
  end.

Definition with_window (w h : Z) (lay : Layout) (p : PopinDialog) : PopinDialog :=
  mkPopinDialog (attr_hidden p) (hidden p) (style p) lay (focused p) w h.

(** The window takes the size [w] by [h], the page is laid out again,
    which gives the element the layout [lay], and the [resize] event
    reaches the listeners registered at that time. *)
Definition resize (w h : Z) (lay : Layout) : Host unit :=
  modify (fun pg => with_element (with_window w h lay (element pg)) pg) ;;
  ls <- gets resize_listeners ;;
  dispatch ls.

(** The box [r] lies in a window of [w] by [h] pixels. *)
Definition inside (r : DOMRect) (w h : Z) : Prop :=
  0 <= left r /\ right r <= w /\ 0 <= top r /\ bottom r <= h.

(** The two callbacks of the life of a custom element. *)
Inductive Callback : Type :=
| Connected
| Disconnected.

Definition callback (c : Callback) : Host unit :=
  match c with
  | Connected => connectedCallback
  | Disconnected => disconnectedCallback
  end.

Fixpoint lifecycle (cs : list Callback) : Host unit :=
  match cs with
  | [] => ret tt
  | c :: cs' => callback c ;; lifecycle cs'
  end.

End Page.

(** ** Sessions of the editor *)

Module Session.
Import Selector.

(** Operations one after the other. *)
Fixpoint run_all (ops : list Operation) : Editor unit :=
  match ops with
  | [] => ret tt
  | op :: ops' => run op ;; run_all ops'
  end.

(** The four methods, as opposed to the assignments of properties. *)
Definition is_method (op : Operation) : bool :=
  match op with
  | OpSetStepAt _ _ | OpDeleteStepAt _ | OpSave | OpReset => true
  | _ => false
  end.

Definition is_save (op : Operation) : bool :=
  match op with
  | OpSave => true
  | _ => false
  end.

(** The payloads of the change events of a trace, oldest first. *)
Fixpoint change_events (t : list Effect) : list (list Step) :=
  match t with
  | [] => []
  | DispatchChange value :: t' => value :: change_events t'
  | _ :: t' => change_events t'
  end.

(** An edit: a method other than [save()]. *)
Definition is_edit (op : Operation) : bool :=
  is_method op && negb (is_save op).

(** An element without unsaved changes shows its saved value. *)
Definition clean_is_saved (e : StepsSelector) : Prop :=
  _dirty e = false -> _steps e = initialValue e.

End Session.

(** ** Sample data *)

Module Sample.
Import Selector Popin.

Definition step_named (n : string) : Step :=
  mkStep n "" "step" None None None None None.

Definition A : Step := step_named "A".
Definition B : Step := step_named "B".
Definition C : Step := step_named "C".
Definition D : Step := step_named "D".
Definition X : Step := step_named "X".
Definition Y : Step := step_named "Y".

(** A provider that offers [X] and [Y] at every position. *)
Definition offers_X_Y (prefix : list Step) : list Step := [X; Y].

(** An editor on [[A; B; C; D]], never saved. *)
Definition editor_ABCD : StepsSelector :=
  mkStepsSelector false [A; B; C; D] [] offers_X_Y.

(** An editor with unsaved changes. *)
Definition editor_dirty : StepsSelector :=
  mkStepsSelector true [A] [A; B] offers_X_Y.

(** An editor on [[A; B; C]], saved, with the provider above. *)
Definition editor_ABC : StepsSelector :=
  mkStepsSelector false [A; B; C] [A; B; C] offers_X_Y.

(** A displayed, focused dialog of 500 by 100 pixels that the page puts
    at (10, 20), in a window of 400 by 300 pixels. The page is not
    scrolled and the dialog has no positioned ancestor. *)
Definition wide_dialog : PopinDialog :=
  mkPopinDialog None HiddenFalse (mkStyle None None)
                (fixed_layout (mkDOMRect 10 20 500 100) 0 0) true 400 300.

(** The same dialog, 200 pixels wide, placed across the right and the
    bottom edges of the window. *)
Definition small_dialog : PopinDialog :=
  mkPopinDialog None HiddenFalse (mkStyle None None)
                (fixed_layout (mkDOMRect 350 250 200 100) 0 0) true 400 300.
End Sample.

Module Scenario.
Import Selector Popin Page.

(** A provider that offers two steps named [B] after a first step, and
    [X] and [Y] at the first position. *)
Definition B_first : Step := mkStep "B" "1" "step" None None None None None.
Definition B_second : Step := mkStep "B" "2" "step" None None None None None.

Definition offers_two_B (prefix : list Step) : list Step :=
  match prefix with
  | [] => [Sample.X; Sample.Y]
  | _ => [Sample.A; B_first; B_second]
  end.

Definition editor_two_B : StepsSelector :=
  mkStepsSelector false [Sample.X; Sample.A] [Sample.X; Sample.A] offers_two_B.

(** A page where another listener is registered and the element is not. *)
Definition fresh_page : Page :=
  mkPage Sample.small_dialog [Foreign 7] 0.

(** A hidden dialog with offsets left from an earlier placement. *)
Definition hidden_dialog : PopinDialog :=
  mkPopinDialog (Some "") (HiddenFromAttribute (Some "")) (mkStyle (Some 200) (Some 200))
                (fixed_layout (mkDOMRect 350 250 200 100) 0 0) false 400 300.

(** A displayed dialog that lies in the window, with the focus on some
    other element. *)
Definition inner_dialog : PopinDialog :=
  mkPopinDialog None HiddenFalse (mkStyle (Some 5) None)
                (fixed_layout (mkDOMRect 50 60 200 100) 0 0) false 400 300.

(** The dialog of [Sample.small_dialog] on a page that is scrolled down by
    1000 pixels: the box of the dialog is at (350, 250) in the window, and
    its containing block, the page, begins 1000 pixels above the window. *)
Definition scrolled_dialog : PopinDialog :=
  mkPopinDialog None HiddenFalse (mkStyle None None)
                (fixed_layout (mkDOMRect 350 250 200 100) 0 (-1000)) true 400 300.

(** The same dialog in a positioned ancestor whose padding edge is at
    (300, 200) in the window, on a page that is not scrolled. *)
Definition nested_dialog : PopinDialog :=
  mkPopinDialog None HiddenFalse (mkStyle None None)
                (fixed_layout (mkDOMRect 350 250 200 100) 300 200) true 400 300.

(** The layout of the dialog of [Sample.small_dialog] after the window
    has become 250 by 120 pixels: the page puts it at (230, 110). *)
Definition layout_after_resize : Layout :=
  fixed_layout (mkDOMRect 230 110 200 100) 0 0.
End Scenario.

(** * Properties *)

(** ** [slice] on the indices the editor uses *)

Section Slice.
Context {A : Type}.
Implicit Types (l : list A) (k : Z).

Lemma slice_prefix l k :
  0 <= k -> Js.slice l 0 k = take (Z.to_nat k) l.
Proof.
  intros Hk. unfold Js.slice, Js.relative, Js.length.
  destruct (Z.ltb_spec k 0) as [|_]; [lia|].
  change (0 <? 0) with false. cbv iota.
  set (len := Z.of_nat (List.length l)).
  assert (0 <= len) by lia.
  rewrite (Z.min_l 0 len) by lia. rewrite drop_0, Z.sub_0_r.
  destruct (Z.le_ge_cases k len) as [Hle|Hge].
  - rewrite (Z.min_l k len), Z.max_l by lia. reflexivity.
  - rewrite (Z.min_r k len), Z.max_l by lia.
    rewrite !take_ge by lia. reflexivity.
Qed.

Lemma slice_suffix l k :
  0 <= k -> Js.slice_from l k = drop (Z.to_nat k) l.
Proof.
  intros Hk. unfold Js.slice_from, Js.slice, Js.relative, Js.length.
  set (len := Z.of_nat (List.length l)).
  assert (0 <= len) by lia.
  destruct (Z.ltb_spec k 0) as [|_]; [lia|].
  destruct (Z.ltb_spec len 0) as [|_]; [lia|].
  rewrite (Z.min_l len len) by lia.
  destruct (Z.le_ge_cases k len) as [Hle|Hge].
  - rewrite (Z.min_l k len), Z.max_l by lia.
    apply take_ge. rewrite length_drop. lia.
  - rewrite (Z.min_r k len) by lia.
    rewrite (drop_ge l (Z.to_nat len)) by lia.
    rewrite (drop_ge l (Z.to_nat k)) by lia.
    apply take_nil.
Qed.

Lemma slice_prefix_all l k :
  Js.length l <= k -> Js.slice l 0 k = l.
Proof.
  unfold Js.length. intros Hk.
  rewrite slice_prefix by lia. apply take_ge. lia.
Qed.

Lemma slice_suffix_none l k :
  Js.length l <= k -> Js.slice_from l k = [].
Proof.
  unfold Js.length. intros Hk.
  rewrite slice_suffix by lia. apply drop_ge. lia.
Qed.

(** [[...l.slice(0, k), x, ...l.slice(k + 1)]] is [l] with its element
    [k] replaced, when there is one. *)
Lemma splice_insert l k (x : A) :
  0 <= k < Js.length l ->
  Js.slice l 0 k ++ [x] ++ Js.slice_from l (k + 1) = <[Z.to_nat k := x]> l.
Proof.
  unfold Js.length. intros Hk.
  rewrite slice_prefix, slice_suffix by lia.
  replace (Z.to_nat (k + 1)) with (S (Z.to_nat k)) by lia.
  symmetry. apply insert_take_drop. lia.
Qed.

Lemma find_none (p : A -> bool) l :
  (forall x, x ∈ l -> p x = false) -> Js.find p l = None.
Proof.
  induction l as [|y l IH]; intros Hall; [reflexivity|].
  cbn. rewrite (Hall y) by (left; reflexivity).
  apply IH. intros x Hx. apply Hall. right. exact Hx.
Qed.
End Slice.

(** ** The step-sequence editor *)

Section Editor.
Import Selector.
Implicit Types (e : StepsSelector) (x : Step) (k : Z).

Lemma exec_setStepAt e k x :
  exec (setStepAt k (Some x)) e =
  with_dirty true
    (with_steps (Js.slice (_steps e) 0 k ++ [x] ++ Js.slice_from (_steps e) (k + 1)) e).
Proof. reflexivity. Qed.

Lemma trace_setStepAt e k x :
  trace (setStepAt k (Some x)) e =
  [ RequestUpdate "steps" (VSteps (_steps e));
    DispatchChange (Js.slice (_steps e) 0 k ++ [x] ++ Js.slice_from (_steps e) (k + 1));
    RequestUpdate "dirty" (VBool (_dirty e)) ].
Proof. reflexivity. Qed.

Lemma exec_deleteStepAt e k :
  exec (deleteStepAt k) e = with_dirty true (with_steps (Js.slice (_steps e) 0 k) e).
Proof. reflexivity. Qed.

Lemma exec_save e :
  exec save e = with_initialValue (_steps e) (with_dirty false e).
Proof. reflexivity. Qed.

Lemma exec_reset e :
  exec reset e = with_steps (initialValue e) (with_dirty false e).
Proof. reflexivity. Qed.

Lemma exec_seq {St Ev A B} (m : Prog St Ev A) (n : Prog St Ev B) (s : St) :
  exec (m ;; n) s = exec n (exec m s).
Proof.
  unfold exec, bind. destruct (m s) as [[a s1] t1]. cbn.
  destruct (n s1) as [[b s2] t2]. reflexivity.
Qed.
End Editor.

Section Rendering.
Import Selector.
Implicit Types (e : StepsSelector) (i : nat).

Lemma render_entries_lookup e i :
  render_entries e !! i =
  (fun step => mkEntry step (completion e (take i (_steps e)))) <$> (_steps e !! i).
Proof.
  unfold render_entries. rewrite list_lookup_imap.
  rewrite slice_prefix by lia. rewrite Nat2Z.id. reflexivity.
Qed.

Lemma render_lookup e i :
  steps_container (render e) !! i =
  (fun step => render_item i (mkEntry step (completion e (take i (_steps e)))))
    <$> (_steps e !! i).
Proof.
  cbn. rewrite list_lookup_imap, render_entries_lookup.
  destruct (_steps e !! i); reflexivity.
Qed.
End Rendering.

Section EditorClaims.
Import Selector.
Implicit Types (e : StepsSelector) (x : Step) (k : Z).

(** C3. Whatever the state and the index, [setStepAt] with an undefined
    step leaves the element as it is (its steps, its dirty flag and its
    saved value), dispatches no change event and writes the error to the
    console; this is what the [set] listener of a rendered item does with
    a name that none of the candidates of that item bears. A call with a
    step, at an index of the sequence, replaces the element at that index
    and no other, and sets the dirty flag. *)
Theorem setStepAt_undefined_is_noop e k :
  (exec (setStepAt k None) e = e /\
   trace (setStepAt k None) e = [ConsoleError "Step is undefined"])
  /\ (forall (i : nat) (it : Item) (value : string),
        steps_container (render e) !! i = Some it ->
        (forall c, c ∈ completion e (take i (_steps e)) -> name c <> value) ->
        exec (on_set it value) e = e /\
        trace (on_set it value) e = [ConsoleError "Step is undefined"])
  /\ (forall x,
        0 <= k < Js.length (_steps e) ->
        let e' := exec (setStepAt k (Some x)) e in
        _steps e' = <[Z.to_nat k := x]> (_steps e) /\
        _steps e' !! Z.to_nat k = Some x /\
        (forall j : nat, j <> Z.to_nat k -> _steps e' !! j = _steps e !! j) /\
        List.length (_steps e') = List.length (_steps e) /\
        _dirty e' = true).
Proof.
  split; [split; reflexivity|]. split.
  - intros i it value Hit Hnone.
    rewrite render_lookup in Hit.
    destruct (_steps e !! i) as [step|]; [|discriminate].
    injection Hit as <-. cbn [on_set render_item entry_completion].
    rewrite find_none; [split; reflexivity|].
    intros c Hc. apply String.eqb_neq. apply Hnone. exact Hc.
  - intros x Hk e'. subst e'. rewrite exec_setStepAt. cbn [with_dirty with_steps _steps _dirty].
    rewrite splice_insert by exact Hk.
    unfold Js.length in Hk.
    repeat split.
    + apply list_lookup_insert_eq. lia.
    + intros j Hj. apply list_lookup_insert_ne. congruence.
    + apply length_insert.
Qed.

Lemma setStepAt_undefined_is_noop_witness :
  let item0 := render_item 0 (mkEntry Sample.A [Sample.X; Sample.Y]) in
  steps_container (render Sample.editor_ABC) !! 0%nat = Some item0
  /\ exec (on_set item0 "Z") Sample.editor_ABC = Sample.editor_ABC
  /\ trace (on_set item0 "Z") Sample.editor_ABC = [ConsoleError "Step is undefined"]
  /\ 0 <= 1 < Js.length (_steps Sample.editor_ABC)
  /\ _steps (exec (setStepAt 1 (Some Sample.X)) Sample.editor_ABC)
     = [Sample.A; Sample.X; Sample.C].
Proof.
  intros item0.
  destruct (setStepAt_undefined_is_noop Sample.editor_ABC 1) as (_ & Hset & Hrepl).
  assert (Hitem : steps_container (render Sample.editor_ABC) !! 0%nat = Some item0)
    by reflexivity.
  assert (Hnone : forall c, c ∈ completion Sample.editor_ABC
                                  (take 0 (_steps Sample.editor_ABC)) ->
                            name c <> "Z").
  { intros c Hc. cbn in Hc.
    repeat (apply elem_of_cons in Hc as [->|Hc]); try discriminate.
    inversion Hc. }
  assert (Hin : 0 <= 1 < Js.length (_steps Sample.editor_ABC))
    by (vm_compute; split; [discriminate|reflexivity]).
  destruct (Hset 0%nat item0 "Z" Hitem Hnone) as (Hexec & Htrace).
  destruct (Hrepl Sample.X Hin) as (Hsteps & _).
  repeat split; assumption || apply Hin.
Defined.

(** C4. [deleteStepAt] keeps the first [at] steps and drops the step at
    [at] with all that follow it, so that the sequence has length [at]
    when it had at least that many steps; [[a; b; c; d]] becomes [[a]] at
    index 1. The dirty flag is set whatever the index, also when the
    sequence had exactly [at] steps and none is dropped. *)
Theorem deleteStepAt_truncates e k :
  let e' := exec (deleteStepAt k) e in
  _dirty e' = true
  /\ (0 <= k -> _steps e' = take (Z.to_nat k) (_steps e))
  /\ (0 <= k <= Js.length (_steps e) ->
      Js.length (_steps e') = k /\
      forall j : nat, _steps e' !! j =
                      if decide (j < Z.to_nat k)%nat then _steps e !! j else None)
  /\ (k = Js.length (_steps e) -> _steps e' = _steps e /\ _dirty e' = true)
  /\ (forall a b c d, _steps e = [a; b; c; d] -> k = 1 -> _steps e' = [a]).
Proof.
  intros e'. subst e'. rewrite exec_deleteStepAt.
  cbn [with_dirty with_steps _steps _dirty].
  split; [reflexivity|]. split; [apply slice_prefix|]. split; [|split].
  - unfold Js.length. intros Hk. rewrite slice_prefix by lia. split.
    + rewrite length_take. lia.
    + intros j. destruct (decide (j < Z.to_nat k)%nat) as [Hj|Hj].
      * apply lookup_take_lt. exact Hj.
      * apply lookup_take_ge. lia.
  - intros ->. split; [|reflexivity]. apply slice_prefix_all. lia.
  - intros a b c d -> ->. reflexivity.
Qed.

Lemma deleteStepAt_truncates_witness :
  _steps (exec (deleteStepAt 1) Sample.editor_ABCD) = [Sample.A]
  /\ Js.length (_steps (exec (deleteStepAt 1) Sample.editor_ABCD)) = 1
  /\ 3 = Js.length (_steps Sample.editor_ABC)
  /\ _steps (exec (deleteStepAt 3) Sample.editor_ABC) = [Sample.A; Sample.B; Sample.C]
  /\ _dirty (exec (deleteStepAt 3) Sample.editor_ABC) = true.
Proof.
  destruct (deleteStepAt_truncates Sample.editor_ABCD 1) as (_ & _ & Hlen & _ & Hexample).
  destruct (deleteStepAt_truncates Sample.editor_ABC 3) as (_ & _ & _ & Hsame & _).
  assert (Hin : 0 <= 1 <= Js.length (_steps Sample.editor_ABCD))
    by (vm_compute; split; discriminate).
  split; [exact (Hexample Sample.A Sample.B Sample.C Sample.D eq_refl eq_refl)|].
  split; [exact (proj1 (Hlen Hin))|].
  split; [reflexivity|].
  exact (Hsame eq_refl).
Defined.

(** C5. [save()] copies the steps into [initialValue] and clears the dirty
    flag; [reset()] copies [initialValue] into the steps and clears the
    dirty flag. Hence [save()], then one [setStepAt] with a step at any
    index, then [reset()] gives back the steps that were there at the
    [save()], with the dirty flag cleared. *)
Theorem save_reset_roundtrip e k x :
  let saved := exec save e in
  let final := exec (save ;; setStepAt k (Some x) ;; reset) e in
  (_steps final = _steps e /\ _dirty final = false)
  /\ (initialValue saved = _steps e /\ _steps saved = _steps e /\ _dirty saved = false)
  /\ (_steps (exec reset e) = initialValue e /\ _dirty (exec reset e) = false /\
      initialValue (exec reset e) = initialValue e).
Proof.
  intros saved final. subst saved final.
  rewrite !exec_seq, exec_save, exec_reset, exec_setStepAt, exec_reset.
  repeat split; reflexivity.
Qed.

(** C6. A [setStepAt] with a step and a [deleteStepAt] leave the dirty flag
    set, from any state and so from one where it is clear. Of the methods
    of the element, only [save()] and [reset()] clear a flag that is set;
    the listeners that [render()] installs on the items call
    [setStepAt] and [deleteStepAt], and they leave a set flag set. *)
Theorem dirty_monotone e :
  (forall k x, _dirty (exec (setStepAt k (Some x)) e) = true)
  /\ (forall k, _dirty (exec (deleteStepAt k) e) = true)
  /\ (forall op, _dirty e = true -> _dirty (exec (run op) e) = false ->
                 op = OpSave \/ op = OpReset)
  /\ (forall (i : nat) it value, steps_container (render e) !! i = Some it ->
        _dirty e = true ->
        _dirty (exec (on_set it value) e) = true /\
        _dirty (exec (on_delete it) e) = true).
Proof.
  split; [reflexivity|]. split; [reflexivity|]. split.
  - intros [k [x|]|k| | |v|v|v] Hd Hafter; cbn in Hafter; try discriminate; auto;
      congruence.
  - intros i it value Hit Hd. rewrite render_lookup in Hit.
    destruct (_steps e !! i) as [step|]; [|discriminate].
    injection Hit as <-. cbn [on_set on_delete render_item]. split.
    + destruct (Js.find _ _); [reflexivity|exact Hd].
    + reflexivity.
Qed.

Lemma dirty_monotone_witness :
  _dirty Sample.editor_dirty = true
  /\ _dirty (exec (run OpReset) Sample.editor_dirty) = false
  /\ (OpReset = OpSave \/ OpReset = OpReset).
Proof.
  destruct (dirty_monotone Sample.editor_dirty) as (_ & _ & Honly & _).
  split; [reflexivity|]. split; [reflexivity|].
  exact (Honly OpReset eq_refl eq_refl).
Defined.

(** C7. In every render, the candidates of the item at index [i] are
    [completion] applied to the [i] first steps of the element at that
    time: both the list the item shows and the list its [set] listener
    searches. After the step at index 0 is replaced by [a2], the next render
    shows [completion([a2])] at index 1, although the step at index 1 is
    the one that was there. *)
Theorem render_completion_fresh e :
  (forall i : nat,
      render_entries e !! i =
      (fun step => mkEntry step (completion e (take i (_steps e)))) <$> (_steps e !! i))
  /\ (forall i : nat,
      slot_values <$> (steps_container (render e) !! i) =
      (fun _ => map (fun c => (name c, name c)) (completion e (take i (_steps e))))
        <$> (_steps e !! i))
  /\ (forall a b rest a2,
        _steps e = a :: b :: rest ->
        let e' := exec (setStepAt 0 (Some a2)) e in
        _steps e' !! 1%nat = Some b /\
        render_entries e' !! 1%nat = Some (mkEntry b (completion e [a2])) /\
        slot_values <$> (steps_container (render e') !! 1%nat) =
        Some (map (fun c => (name c, name c)) (completion e [a2]))).
Proof.
  split; [intros i; apply render_entries_lookup|]. split.
  - intros i. rewrite render_lookup. destruct (_steps e !! i); reflexivity.
  - intros a b rest a2 He e'.
    assert (Hsteps : _steps e' = a2 :: b :: rest).
    { subst e'. rewrite exec_setStepAt. cbn [with_dirty with_steps _steps].
      rewrite He, slice_prefix, slice_suffix by lia. reflexivity. }
    assert (Hcompl : completion e' = completion e) by reflexivity.
    rewrite render_lookup, render_entries_lookup, Hsteps, Hcompl.
    repeat split.
Qed.

Lemma render_completion_fresh_witness :
  _steps Sample.editor_ABC = [Sample.A; Sample.B; Sample.C]
  /\ render_entries (exec (setStepAt 0 (Some Sample.X)) Sample.editor_ABC) !! 1%nat
     = Some (mkEntry Sample.B (Sample.offers_X_Y [Sample.X])).
Proof.
  split; [reflexivity|].
  destruct (render_completion_fresh Sample.editor_ABC) as (_ & _ & Hfresh).
  destruct (Hfresh Sample.A Sample.B [Sample.C] Sample.X eq_refl) as (_ & Hentry & _).
  exact Hentry.
Defined.

(** C10. At an index that is the length of the sequence or more,
    [setStepAt] with a step does not fail: it adds the step at the end,
    whatever the index, sets the dirty flag and dispatches the change event
    with the new sequence. *)
Theorem setStepAt_beyond_end_appends e k x :
  Js.length (_steps e) <= k ->
  let e' := exec (setStepAt k (Some x)) e in
  _steps e' = _steps e ++ [x]
  /\ Js.length (_steps e') = Js.length (_steps e) + 1
  /\ _steps e' !! List.length (_steps e) = Some x
  /\ (Js.length (_steps e) < k -> _steps e' !! Z.to_nat k = None)
  /\ _dirty e' = true
  /\ trace (setStepAt k (Some x)) e =
     [ RequestUpdate "steps" (VSteps (_steps e));
       DispatchChange (_steps e ++ [x]);
       RequestUpdate "dirty" (VBool (_dirty e)) ].
Proof.
  intros Hk e'.
  assert (Happ : Js.slice (_steps e) 0 k ++ [x] ++ Js.slice_from (_steps e) (k + 1)
                 = _steps e ++ [x]).
  { rewrite slice_prefix_all by exact Hk.
    rewrite slice_suffix_none by lia. reflexivity. }
  assert (Hsteps : _steps e' = _steps e ++ [x]).
  { subst e'. rewrite exec_setStepAt. exact Happ. }
  rewrite trace_setStepAt, Happ, Hsteps. unfold Js.length in *.
  repeat split.
  - rewrite length_app. cbn. lia.
  - apply list_lookup_middle. reflexivity.
  - intros Hlt. apply lookup_ge_None. rewrite length_app. cbn. lia.
Qed.

Lemma setStepAt_beyond_end_appends_witness :
  Js.length (_steps Sample.editor_ABC) <= 7
  /\ _steps (exec (setStepAt 7 (Some Sample.X)) Sample.editor_ABC)
     = [Sample.A; Sample.B; Sample.C; Sample.X].
Proof.
  assert (Hge : Js.length (_steps Sample.editor_ABC) <= 7)
    by (vm_compute; discriminate).
  destruct (setStepAt_beyond_end_appends Sample.editor_ABC 7 Sample.X Hge) as (Happ & _).
  split; [exact Hge|exact Happ].
Defined.
End EditorClaims.

(** ** The pop-in dialog *)

Section DialogClaims.
Import Popin.
Implicit Types (p : PopinDialog).

(** The style that [ensureElementInView] leaves, case by case. *)
Lemma exec_ensureElementInView p :
  let rect := getBoundingClientRect (with_style (mkStyle None None) p) in
  let l1 := if right rect >? innerWidth p
            then Some (innerWidth p - width rect) else None in
  let l2 := if left rect <? 0 then Some 0 else l1 in
  let t1 := if bottom rect >? innerHeight p
            then Some (innerHeight p - height rect) else None in
  let t2 := if top rect <? 0 then Some 0 else t1 in
  exec ensureElementInView p = with_style (mkStyle l2 t2) p.
Proof.
  cbv zeta. unfold ensureElementInView, exec, bind, gets, set_style_left, set_style_top,
    modify, when, ret.
  cbn [fst snd with_style style style_left style_top innerWidth innerHeight].
  set (rect := getBoundingClientRect _).
  destruct (right rect >? innerWidth p), (left rect <? 0),
           (bottom rect >? innerHeight p), (top rect <? 0); reflexivity.
Qed.

(** No method of the element dispatches an event. *)
Lemma trace_setAttribute p n v : trace (setAttribute n v) p = [].
Proof.
  unfold setAttribute, trace, when.
  destruct (String.eqb_spec n "hidden") as [->|_]; reflexivity.
Qed.

Lemma trace_removeAttribute p n : trace (removeAttribute n) p = [].
Proof.
  unfold removeAttribute, trace, when, bind, gets.
  destruct (String.eqb_spec n "hidden") as [->|_]; [|reflexivity].
  destruct (attr_hidden p); reflexivity.
Qed.

Lemma trace_keydown p ev : trace (keydown ev) p = [].
Proof.
  unfold keydown, trace, when. destruct (String.eqb (key ev) "Escape"); [|reflexivity].
  unfold blur, bind, gets, when. destruct (focused p); reflexivity.
Qed.

Lemma trace_ensureElementInView p : trace ensureElementInView p = [].
Proof.
  unfold ensureElementInView, trace, bind, gets, set_style_left, set_style_top,
    modify, when, ret.
  cbn [fst snd with_style style style_left style_top innerWidth innerHeight].
  set (rect := getBoundingClientRect _).
  destruct (right rect >? innerWidth p), (left rect <? 0),
           (bottom rect >? innerHeight p), (top rect <? 0); reflexivity.
Qed.

(** A displayed dialog that is wider than the window: the offset of its
    left edge is 0 when the page puts it left of the window, and
    [innerWidth - width], which is negative, otherwise. *)
Lemma ensureElementInView_wider_than_window p :
  visible p = true ->
  innerWidth p < box_width (layout p) None ->
  style_left (style (exec ensureElementInView p)) =
  Some (if static_left (layout p) <? 0 then 0
        else innerWidth p - box_width (layout p) None).
Proof.
  intros Hv Hw. rewrite exec_ensureElementInView. cbv zeta.
  unfold getBoundingClientRect, visible in *. cbn in *. rewrite Hv.
  unfold right. cbn.
  destruct (Z.ltb_spec (static_left (layout p)) 0) as [Hl|Hl]; [reflexivity|].
  destruct (Z.gtb_spec (static_left (layout p) + box_width (layout p) None)
                       (innerWidth p)) as [Hr|Hr];
    [reflexivity|lia].
Qed.

(** On a page where the containing block of the dialog begins where the
    window does, a dialog of fixed size that is no larger than the window
    lies in the window after [ensureElementInView()]. *)
Lemma ensureElementInView_inside p :
  aligned (layout p) ->
  fixed_size (layout p) ->
  width (getBoundingClientRect p) <= innerWidth p ->
  height (getBoundingClientRect p) <= innerHeight p ->
  Page.inside (getBoundingClientRect (exec ensureElementInView p))
              (innerWidth p) (innerHeight p)
  /\ width (getBoundingClientRect (exec ensureElementInView p))
     = width (getBoundingClientRect p)
  /\ height (getBoundingClientRect (exec ensureElementInView p))
     = height (getBoundingClientRect p).
Proof.
  intros [Hx Hy] Hfix. rewrite exec_ensureElementInView. cbv zeta.
  unfold Page.inside, getBoundingClientRect, visible, right, bottom. cbn.
  destruct (attr_hidden p) as [v|]; cbn; [lia|].
  rewrite Hx, Hy.
  set (w := box_width (layout p) None). set (h := box_height (layout p) None).
  assert (Hw : forall offset, box_width (layout p) offset = w)
    by (intros offset; apply Hfix).
  assert (Hh : forall offset, box_height (layout p) offset = h)
    by (intros offset; apply Hfix).
  clearbody w h. rewrite !Hw, !Hh. intros Hwidth Hheight.
  destruct (Z.ltb_spec (static_left (layout p)) 0),
           (Z.gtb_spec (static_left (layout p) + w) (innerWidth p)),
           (Z.ltb_spec (static_top (layout p)) 0),
           (Z.gtb_spec (static_top (layout p) + h) (innerHeight p));
    cbn; lia.
Qed.

(** C1. The dialog [Scenario.scrolled_dialog] is 200 by 100 pixels in a
    window of 400 by 300 pixels, on a page that is scrolled down by 1000
    pixels, and its box, at (350, 250), sticks out of the window on the
    right and at the bottom. [ensureElementInView()] writes the offsets
    200px and 200px, which the page counts from its own beginning: the box
    of the dialog ends at (200, -800), above the window. Under a positioned
    ancestor that begins at (300, 200), the same offsets put the box at
    (500, 400), right of the window and below it. *)
Theorem ensureElementInView_scrolled_page_out_of_view :
  let scrolled := exec ensureElementInView Scenario.scrolled_dialog in
  let nested := exec ensureElementInView Scenario.nested_dialog in
  (width (getBoundingClientRect Scenario.scrolled_dialog)
   <= innerWidth Scenario.scrolled_dialog
   /\ height (getBoundingClientRect Scenario.scrolled_dialog)
      <= innerHeight Scenario.scrolled_dialog)
  /\ style scrolled = mkStyle (Some 200) (Some 200)
  /\ getBoundingClientRect scrolled = mkDOMRect 200 (-800) 200 100
  /\ ~ 0 <= top (getBoundingClientRect scrolled)
  /\ style nested = mkStyle (Some 200) (Some 200)
  /\ getBoundingClientRect nested = mkDOMRect 500 400 200 100
  /\ ~ right (getBoundingClientRect nested) <= innerWidth Scenario.nested_dialog
  /\ ~ bottom (getBoundingClientRect nested) <= innerHeight Scenario.nested_dialog.
Proof.
  cbv zeta. split; [split; vm_compute; discriminate|].
  repeat split; try reflexivity; vm_compute; intros H; apply H; reflexivity.
Qed.

(** C2. The dialog [Sample.wide_dialog] is 500 pixels wide in a window of
    400 pixels, and the page puts its left edge at 10. After
    [ensureElementInView()] its left edge is at -100, not at 0: the test of
    the left edge reads the box taken before the shift to the left. *)
Theorem ensureElementInView_wide_dialog_left_negative :
  width (getBoundingClientRect Sample.wide_dialog) = 500
  /\ innerWidth Sample.wide_dialog = 400
  /\ style_left (style (exec ensureElementInView Sample.wide_dialog)) = Some (-100)
  /\ left (getBoundingClientRect (exec ensureElementInView Sample.wide_dialog)) = -100
  /\ left (getBoundingClientRect (exec ensureElementInView Sample.wide_dialog)) <> 0.
Proof. repeat split. discriminate. Qed.

(** C8. The dialog [Sample.small_dialog] is displayed and has the focus.
    When it loses the focus it is hidden, and when its [hidden] attribute
    is removed it is displayed again; neither change of visibility
    dispatches an event. *)
Theorem visibility_change_dispatches_nothing :
  let hidden_dialog := exec focusout Sample.small_dialog in
  visible Sample.small_dialog = true
  /\ visible hidden_dialog = false
  /\ trace focusout Sample.small_dialog = []
  /\ visible (exec (removeAttribute "hidden") hidden_dialog) = true
  /\ trace (removeAttribute "hidden") hidden_dialog = [].
Proof. repeat split. Qed.

(** C9. On a displayed dialog that has the focus, the Escape key does what
    the loss of the focus does: [keydown] calls [blur()], the dialog loses
    the focus, and [blured()] hides it. Removing the [hidden] attribute of
    a hidden dialog displays it and gives it the focus. *)
Theorem escape_and_blur_hide p :
  visible p = true ->
  focused p = true ->
  let escape := keydown (mkKeyboardEvent "Escape") in
  exec escape p = exec focusout p
  /\ exec blur p = exec focusout p
  /\ (visible (exec escape p) = false /\ focused (exec escape p) = false)
  /\ (visible (exec focusout p) = false /\ focused (exec focusout p) = false)
  /\ (forall q, visible q = false ->
        visible (exec (removeAttribute "hidden") q) = true /\
        focused (exec (removeAttribute "hidden") q) = true)
  /\ (visible (exec (removeAttribute "hidden") (exec escape p)) = true /\
      focused (exec (removeAttribute "hidden") (exec escape p)) = true).
Proof.
  intros Hv Hf escape. subst escape.
  assert (Hesc : exec (keydown (mkKeyboardEvent "Escape")) p = exec focusout p).
  { unfold keydown, blur, exec, bind, gets, when. cbn. rewrite Hf. reflexivity. }
  assert (Hunhide : forall q, visible q = false ->
            visible (exec (removeAttribute "hidden") q) = true /\
            focused (exec (removeAttribute "hidden") q) = true).
  { intros q Hq. unfold visible in Hq.
    destruct q as [[v|] h st fl fo iw ih]; [|discriminate]. split; reflexivity. }
  split; [exact Hesc|]. split.
  { unfold blur, exec, bind, gets, when. rewrite Hf. reflexivity. }
  rewrite Hesc.
  assert (Hhid : visible (exec focusout p) = false) by reflexivity.
  repeat split; try reflexivity; try (apply Hunhide; assumption).
Qed.

Lemma escape_and_blur_hide_witness :
  visible Sample.small_dialog = true
  /\ focused Sample.small_dialog = true
  /\ visible (exec (keydown (mkKeyboardEvent "Escape")) Sample.small_dialog) = false
  /\ focused (exec (keydown (mkKeyboardEvent "Escape")) Sample.small_dialog) = false.
Proof.
  destruct (escape_and_blur_hide Sample.small_dialog eq_refl eq_refl)
    as (_ & _ & Hescape & _).
  split; [reflexivity|]. split; [reflexivity|]. exact Hescape.
Defined.
End DialogClaims.

(** * Further properties of the editor *)

Section Sessions.
Import Selector Session.
Implicit Types (e : StepsSelector) (op : Operation) (ops : list Operation).

Lemma trace_seq {St Ev A B} (m : Prog St Ev A) (n : Prog St Ev B) (s : St) :
  trace (m ;; n) s = trace m s ++ trace n (exec m s).
Proof.
  unfold trace, exec, bind. destruct (m s) as [[a s1] t1]. cbn.
  destruct (n s1) as [[b s2] t2]. reflexivity.
Qed.

Lemma change_events_app (t1 t2 : list Effect) :
  change_events (t1 ++ t2) = change_events t1 ++ change_events t2.
Proof.
  induction t1 as [|[prop old|value|msg] t1 IH]; cbn; rewrite ?IH; reflexivity.
Qed.

Lemma run_last_change e op :
  default (_steps e) (last (change_events (trace (run op) e)))
  = _steps (exec (run op) e).
Proof. destruct op as [k [x|]|k| | |v|v|v]; reflexivity. Qed.

(** X1. Whatever the operations on the element, the steps it holds at the
    end are the payload of the last change event it has dispatched, and
    its steps from before when it has dispatched none: a host that keeps
    the payload of the change events holds the steps of the element. *)
Theorem last_change_event_is_current ops e :
  default (_steps e) (last (change_events (trace (run_all ops) e)))
  = _steps (exec (run_all ops) e).
Proof.
  revert e. induction ops as [|op ops IH]; intros e; [reflexivity|].
  cbn [run_all]. rewrite trace_seq, exec_seq, change_events_app, last_app.
  specialize (IH (exec (run op) e)).
  destruct (last (change_events (trace (run_all ops) (exec (run op) e)))) as [v|].
  - exact IH.
  - rewrite run_last_change. exact IH.
Qed.

Lemma run_clean_is_saved e op :
  is_method op = true -> clean_is_saved e -> clean_is_saved (exec (run op) e).
Proof.
  unfold clean_is_saved.
  destruct op as [k [x|]|k| | |v|v|v]; cbn; intros Hm Hinv Hd;
    try discriminate; auto.
Qed.

(** X2. An element that is only driven through its four methods shows its
    saved value whenever its dirty flag is clear; a new element does. The
    assignment of [steps] or of [initialValue] by the host is outside of
    this: it does not touch the flag. *)
Theorem methods_keep_clean_is_saved ops e :
  forallb is_method ops = true ->
  clean_is_saved e ->
  clean_is_saved (exec (run_all ops) e).
Proof.
  revert e. induction ops as [|op ops IH]; intros e Hops Hinv; [exact Hinv|].
  cbn in Hops. apply andb_prop in Hops as [Hop Hops].
  cbn [run_all]. rewrite exec_seq. apply IH; [exact Hops|].
  apply run_clean_is_saved; assumption.
Qed.

Lemma methods_keep_clean_is_saved_witness :
  forallb is_method [OpSetStepAt 0 (Some Sample.X); OpReset] = true
  /\ clean_is_saved new_StepsSelector
  /\ clean_is_saved
       (exec (run_all [OpSetStepAt 0 (Some Sample.X); OpReset]) new_StepsSelector).
Proof.
  assert (Hnew : clean_is_saved new_StepsSelector) by (intros _; reflexivity).
  split; [reflexivity|]. split; [exact Hnew|].
  exact (methods_keep_clean_is_saved
           [OpSetStepAt 0 (Some Sample.X); OpReset] new_StepsSelector eq_refl Hnew).
Defined.

Lemma edits_keep_initialValue ops e :
  forallb is_edit ops = true ->
  initialValue (exec (run_all ops) e) = initialValue e.
Proof.
  revert e. induction ops as [|op ops IH]; intros e Hops; [reflexivity|].
  cbn in Hops. apply andb_prop in Hops as [Hop Hops].
  cbn [run_all]. rewrite exec_seq, IH by exact Hops.
  destruct op as [k [x|]|k| | |v|v|v]; try discriminate; reflexivity.
Qed.

(** X3. After [save()], any number of edits ([setStepAt], [deleteStepAt],
    [reset], in any order and at any index) and then [reset()] give back the
    steps that were there at the [save()], with the dirty flag clear. *)
Theorem reset_after_edits_restores_saved ops e :
  forallb is_edit ops = true ->
  let final := exec (save ;; run_all ops ;; reset) e in
  _steps final = _steps e /\ _dirty final = false /\ initialValue final = _steps e.
Proof.
  intros Hops final. subst final.
  rewrite !exec_seq, exec_reset.
  cbn [with_steps with_dirty _steps _dirty initialValue].
  rewrite edits_keep_initialValue by exact Hops.
  repeat split.
Qed.

Lemma reset_after_edits_restores_saved_witness :
  forallb is_edit [OpDeleteStepAt 1; OpSetStepAt 5 (Some Sample.X); OpReset;
                   OpSetStepAt 0 (Some Sample.Y)] = true
  /\ _steps (exec (save ;;
                   run_all [OpDeleteStepAt 1; OpSetStepAt 5 (Some Sample.X); OpReset;
                            OpSetStepAt 0 (Some Sample.Y)] ;;
                   reset) Sample.editor_ABCD)
     = [Sample.A; Sample.B; Sample.C; Sample.D].
Proof.
  split; [reflexivity|].
  exact (proj1 (reset_after_edits_restores_saved
                  [OpDeleteStepAt 1; OpSetStepAt 5 (Some Sample.X); OpReset;
                   OpSetStepAt 0 (Some Sample.Y)] Sample.editor_ABCD eq_refl)).
Defined.
End Sessions.

Section NegativeSlice.
Context {A : Type}.
Implicit Types (l : list A) (k : Z).

Lemma slice_prefix_negative l k :
  k < 0 -> Js.slice l 0 k = take (Z.to_nat (Js.length l + k)) l.
Proof.
  intros Hk. unfold Js.slice, Js.relative, Js.length.
  set (len := Z.of_nat (List.length l)).
  assert (0 <= len) by lia.
  destruct (Z.ltb_spec k 0) as [_|]; [|lia].
  change (0 <? 0) with false. cbv iota.
  rewrite (Z.min_l 0 len) by lia. rewrite drop_0, Z.sub_0_r.
  f_equal. lia.
Qed.

Lemma slice_suffix_negative l k :
  k < 0 -> Js.slice_from l k = drop (Z.to_nat (Js.length l + k)) l.
Proof.
  intros Hk. unfold Js.slice_from, Js.slice, Js.relative, Js.length.
  set (len := Z.of_nat (List.length l)).
  assert (0 <= len) by lia.
  destruct (Z.ltb_spec k 0) as [_|]; [|lia].
  destruct (Z.ltb_spec len 0) as [|_]; [lia|].
  rewrite (Z.min_l len len) by lia.
  replace (Z.to_nat (Z.max (len + k) 0)) with (Z.to_nat (len + k)) by lia.
  apply take_ge. rewrite length_drop. lia.
Qed.

Lemma find_first (p : A -> bool) l (x : A) :
  Js.find p l = Some x <->
  exists before after,
    l = before ++ x :: after /\ p x = true /\ forall y, y ∈ before -> p y = false.
Proof.
  split.
  - induction l as [|y l IH]; [discriminate|]. cbn.
    destruct (p y) eqn:Hy.
    + intros [= ->]. exists [], l. split; [reflexivity|]. split; [exact Hy|].
      intros z Hz. inversion Hz.
    + intros Hfind. destruct (IH Hfind) as (before & after & -> & Hx & Hbefore).
      exists (y :: before), after. split; [reflexivity|]. split; [exact Hx|].
      intros z Hz. apply elem_of_cons in Hz as [->|Hz]; [exact Hy|].
      apply Hbefore. exact Hz.
  - intros (before & after & -> & Hx & Hbefore).
    induction before as [|y before IH]; cbn.
    + rewrite Hx. reflexivity.
    + rewrite (Hbefore y) by (left; reflexivity).
      apply IH. intros z Hz. apply Hbefore. right. exact Hz.
Qed.

Lemma find_exists (p : A -> bool) l (y : A) :
  y ∈ l -> p y = true -> exists x, Js.find p l = Some x.
Proof.
  induction l as [|z l IH]; intros Hy Hp; [inversion Hy|].
  cbn. destruct (p z) eqn:Hz; [eexists; reflexivity|].
  apply elem_of_cons in Hy as [->|Hy]; [congruence|].
  apply IH; assumption.
Qed.
End NegativeSlice.

Section EditorEdges.
Import Selector Session.
Implicit Types (e : StepsSelector) (x : Step) (k : Z).

(** X4. When a candidate of the item at index [i] bears the name that the
    [set] event carries, the listener puts at index [i] the first
    candidate of that name, in the order of [completion], and no other
    step changes; the dirty flag is set. *)
Theorem set_listener_selects_first_candidate e (i : nat) (it : Item) (value : string)
        (c : Step) :
  steps_container (render e) !! i = Some it ->
  c ∈ completion e (take i (_steps e)) ->
  name c = value ->
  exists chosen before after,
    completion e (take i (_steps e)) = before ++ chosen :: after
    /\ name chosen = value
    /\ (forall y, y ∈ before -> name y <> value)
    /\ _steps (exec (on_set it value) e) = <[i := chosen]> (_steps e)
    /\ _steps (exec (on_set it value) e) !! i = Some chosen
    /\ _dirty (exec (on_set it value) e) = true.
Proof.
  intros Hit Hc Hname. rewrite render_lookup in Hit.
  destruct (_steps e !! i) as [step|] eqn:Hstep; [|discriminate].
  injection Hit as <-. cbn [on_set render_item entry_completion].
  apply lookup_lt_Some in Hstep.
  destruct (find_exists (fun s => String.eqb (name s) value) _ c Hc) as [chosen Hfind].
  { apply String.eqb_eq. exact Hname. }
  rewrite Hfind. apply find_first in Hfind as (before & after & Hsplit & Hp & Hbefore).
  exists chosen, before, after.
  split; [exact Hsplit|]. split; [apply String.eqb_eq; exact Hp|].
  split; [intros y Hy; apply String.eqb_neq, Hbefore, Hy|].
  rewrite exec_setStepAt. cbn [with_dirty with_steps _steps _dirty].
  rewrite splice_insert by (unfold Js.length; lia).
  rewrite Nat2Z.id. split; [reflexivity|]. split; [|reflexivity].
  apply list_lookup_insert_eq. exact Hstep.
Qed.

Lemma set_listener_selects_first_candidate_witness :
  let it := render_item 1 (mkEntry Sample.A (Scenario.offers_two_B [Sample.X])) in
  steps_container (render Scenario.editor_two_B) !! 1%nat = Some it
  /\ Scenario.B_second ∈ completion Scenario.editor_two_B
                                     (take 1 (_steps Scenario.editor_two_B))
  /\ _steps (exec (on_set it "B") Scenario.editor_two_B) = [Sample.X; Scenario.B_first].
Proof.
  intros it.
  assert (Hit : steps_container (render Scenario.editor_two_B) !! 1%nat = Some it)
    by reflexivity.
  assert (Hc : Scenario.B_second ∈ completion Scenario.editor_two_B
                                       (take 1 (_steps Scenario.editor_two_B))).
  { cbn. right. right. left. }
  split; [exact Hit|]. split; [exact Hc|].
  destruct (set_listener_selects_first_candidate
              Scenario.editor_two_B 1 it "B" Scenario.B_second Hit Hc eq_refl)
    as (chosen & before & after & _ & _ & _ & _ & _ & _).
  reflexivity.
Defined.

(** X5. [setStepAt] and [deleteStepAt] take a negative index the way
    [slice] does. In a sequence of [n] steps, [setStepAt] at [-n <= at <= -2]
    replaces the step at [n + at]; at [-1] it gives the steps without the
    last, the new step, and then all the former steps again; below [-n] it
    puts the new step in front. [deleteStepAt] at [at < 0] drops the last
    [-at] steps. *)
Theorem negative_index_counts_from_end e k x :
  let l := _steps e in
  let n := Js.length l in
  let set := _steps (exec (setStepAt k (Some x)) e) in
  let deleted := _steps (exec (deleteStepAt k) e) in
  (k = -1 -> set = take (Z.to_nat (n - 1)) l ++ [x] ++ l)
  /\ (- n <= k <= -2 -> set = <[Z.to_nat (n + k) := x]> l)
  /\ (k < - n -> k <= -2 -> set = x :: l)
  /\ (k < 0 -> deleted = take (Z.to_nat (n + k)) l).
Proof.
  intros l n set deleted. subst set deleted.
  rewrite exec_setStepAt, exec_deleteStepAt.
  cbn [with_dirty with_steps _steps]. fold l. fold n.
  split; [|split; [|split]].
  - intros ->. rewrite slice_prefix_negative by lia. fold n.
    rewrite slice_suffix by lia. reflexivity.
  - intros Hk. rewrite slice_prefix_negative, slice_suffix_negative by lia. fold n.
    replace (Z.to_nat (n + (k + 1))) with (S (Z.to_nat (n + k))) by lia.
    symmetry. apply insert_take_drop. subst n. unfold Js.length in *. lia.
  - intros Hk Hk2. rewrite slice_prefix_negative, slice_suffix_negative by lia. fold n.
    replace (Z.to_nat (n + k)) with O by lia.
    replace (Z.to_nat (n + (k + 1))) with O by lia.
    reflexivity.
  - intros Hk. rewrite slice_prefix_negative by lia. reflexivity.
Qed.

Lemma negative_index_counts_from_end_witness :
  _steps (exec (setStepAt (-1) (Some Sample.X)) Sample.editor_ABC)
  = [Sample.A; Sample.B; Sample.X; Sample.A; Sample.B; Sample.C]
  /\ - Js.length (_steps Sample.editor_ABC) <= -2 <= -2
  /\ _steps (exec (setStepAt (-2) (Some Sample.X)) Sample.editor_ABC)
     = [Sample.A; Sample.X; Sample.C]
  /\ _steps (exec (setStepAt (-4) (Some Sample.X)) Sample.editor_ABC)
     = [Sample.X; Sample.A; Sample.B; Sample.C]
  /\ _steps (exec (deleteStepAt (-1)) Sample.editor_ABC) = [Sample.A; Sample.B].
Proof.
  assert (Hin : - Js.length (_steps Sample.editor_ABC) <= -2 <= -2)
    by (vm_compute; split; discriminate).
  assert (Hlow : -4 < - Js.length (_steps Sample.editor_ABC)) by reflexivity.
  assert (Hle : -4 <= -2) by (vm_compute; discriminate).
  assert (Hneg : -1 < 0) by reflexivity.
  split; [exact (proj1 (negative_index_counts_from_end Sample.editor_ABC (-1) Sample.X)
                       eq_refl)|].
  split; [exact Hin|].
  split; [exact (proj1 (proj2 (negative_index_counts_from_end
                                 Sample.editor_ABC (-2) Sample.X)) Hin)|].
  split; [exact (proj1 (proj2 (proj2 (negative_index_counts_from_end
                                        Sample.editor_ABC (-4) Sample.X))) Hlow Hle)|].
  exact (proj2 (proj2 (proj2 (negative_index_counts_from_end
                                Sample.editor_ABC (-1) Sample.X))) Hneg).
Defined.

(** X6. Two [deleteStepAt] in a row, at indices that are not negative,
    leave the element as one [deleteStepAt] at the smaller index does. A
    [setStepAt] at an index of the sequence, or at its length, followed by
    [deleteStepAt] at the same index leaves the element as the
    [deleteStepAt] alone does. *)
Theorem deleteStepAt_composes e k j x :
  0 <= k ->
  (0 <= j ->
   exec (deleteStepAt k ;; deleteStepAt j) e = exec (deleteStepAt (Z.min k j)) e)
  /\ (k <= Js.length (_steps e) ->
      exec (setStepAt k (Some x) ;; deleteStepAt k) e = exec (deleteStepAt k) e).
Proof.
  intros Hk. split.
  - intros Hj. rewrite exec_seq, !exec_deleteStepAt.
    cbn [with_dirty with_steps _steps _dirty initialValue completion].
    rewrite !slice_prefix by lia. rewrite take_take.
    replace (Z.to_nat j `min` Z.to_nat k)%nat with (Z.to_nat (Z.min k j)) by lia.
    reflexivity.
  - intros Hn. unfold Js.length in Hn.
    rewrite exec_seq, exec_setStepAt, !exec_deleteStepAt.
    cbn [with_dirty with_steps _steps _dirty initialValue completion].
    rewrite !slice_prefix by lia.
    rewrite take_app_le by (rewrite length_take; lia).
    rewrite take_take. rewrite Nat.min_id. reflexivity.
Qed.

Lemma deleteStepAt_composes_witness :
  0 <= 2
  /\ exec (deleteStepAt 2 ;; deleteStepAt 3) Sample.editor_ABCD
     = exec (deleteStepAt 2) Sample.editor_ABCD
  /\ exec (setStepAt 2 (Some Sample.X) ;; deleteStepAt 2) Sample.editor_ABCD
     = exec (deleteStepAt 2) Sample.editor_ABCD.
Proof.
  assert (H0 : 0 <= 2) by (vm_compute; discriminate).
  assert (H3 : 0 <= 3) by (vm_compute; discriminate).
  assert (Hn : 2 <= Js.length (_steps Sample.editor_ABCD)) by (vm_compute; discriminate).
  destruct (deleteStepAt_composes Sample.editor_ABCD 2 3 Sample.X H0) as (Hdel & Hset).
  split; [exact H0|]. split; [exact (Hdel H3)|exact (Hset Hn)].
Defined.

(** X7. [save()] and [reset()] absorb each other: done twice, each leaves
    the element as done once; [reset()] after [save()] changes nothing
    more, and so does [save()] after [reset()]. *)
Theorem save_reset_absorb e :
  exec (save ;; save) e = exec save e
  /\ exec (reset ;; reset) e = exec reset e
  /\ exec (save ;; reset) e = exec save e
  /\ exec (reset ;; save) e = exec reset e.
Proof. repeat split. Qed.

(** X8. An edit that changes no step still counts as a change:
    [setStepAt] with the step that is at that index already, and
    [deleteStepAt] at the length of the sequence or beyond, leave the steps
    as they are, set the dirty flag and dispatch a change event. *)
Theorem idle_edit_sets_dirty e k x :
  (0 <= k -> _steps e !! Z.to_nat k = Some x ->
   _steps (exec (setStepAt k (Some x)) e) = _steps e
   /\ _dirty (exec (setStepAt k (Some x)) e) = true
   /\ change_events (trace (setStepAt k (Some x)) e) = [_steps e])
  /\ (Js.length (_steps e) <= k ->
      _steps (exec (deleteStepAt k) e) = _steps e
      /\ _dirty (exec (deleteStepAt k) e) = true
      /\ change_events (trace (deleteStepAt k) e) = [_steps e]).
Proof.
  split.
  - intros Hk Hx.
    assert (Hsame : Js.slice (_steps e) 0 k ++ [x] ++ Js.slice_from (_steps e) (k + 1)
                    = _steps e).
    { pose proof (lookup_lt_Some _ _ _ Hx) as Hlt.
      rewrite splice_insert by (unfold Js.length; lia).
      apply list_insert_id. exact Hx. }
    rewrite exec_setStepAt, trace_setStepAt, Hsame. repeat split.
  - intros Hk.
    assert (Hsame : Js.slice (_steps e) 0 k = _steps e)
      by (apply slice_prefix_all; exact Hk).
    rewrite exec_deleteStepAt. unfold trace, deleteStepAt, bind, steps, gets, set_steps,
      set_dirty, modify, emit. cbn. rewrite Hsame. repeat split.
Qed.

Lemma idle_edit_sets_dirty_witness :
  _steps Sample.editor_ABC !! Z.to_nat 1 = Some Sample.B
  /\ _dirty Sample.editor_ABC = false
  /\ _steps (exec (setStepAt 1 (Some Sample.B)) Sample.editor_ABC)
     = _steps Sample.editor_ABC
  /\ _dirty (exec (setStepAt 1 (Some Sample.B)) Sample.editor_ABC) = true
  /\ _dirty (exec (deleteStepAt 9) Sample.editor_ABC) = true.
Proof.
  assert (H0 : 0 <= 1) by (vm_compute; discriminate).
  assert (H9 : Js.length (_steps Sample.editor_ABC) <= 9) by (vm_compute; discriminate).
  destruct (idle_edit_sets_dirty Sample.editor_ABC 1 Sample.B) as (Hset & _).
  destruct (idle_edit_sets_dirty Sample.editor_ABC 9 Sample.B) as (_ & Hdel).
  destruct (Hset H0 eq_refl) as (Hsteps & Hdirty & _).
  destruct (Hdel H9) as (_ & Hdirty9 & _).
  split; [reflexivity|]. split; [reflexivity|].
  split; [exact Hsteps|]. split; [exact Hdirty|exact Hdirty9].
Defined.
End EditorEdges.

Section RenderedEditor.
Import Selector.
Implicit Types (e : StepsSelector) (i : nat).

(** X9. [render()] shows one item for each step, in the order of the steps,
    with its index as key and its name. The reset icon is there exactly
    when the dirty flag is set; a click on it restores the saved value, and
    the next render has no icon. The [delete] listener of the item at
    index [i] keeps the [i] steps before it, so that the next render has
    [i] items. *)
Theorem render_items_and_listeners e :
  (key <$> steps_container (render e) = seq 0 (List.length (_steps e))
   /\ slot_name <$> steps_container (render e) = name <$> _steps e)
  /\ (dirty_icon (render e) = None <-> _dirty e = false)
  /\ (forall click, dirty_icon (render e) = Some click ->
        _steps (exec click e) = initialValue e
        /\ dirty_icon (render (exec click e)) = None)
  /\ (forall i it, steps_container (render e) !! i = Some it ->
        _steps (exec (on_delete it) e) = take i (_steps e)
        /\ List.length (steps_container (render (exec (on_delete it) e))) = i).
Proof.
  split; [split|split; [|split]].
  - apply list_eq. intros i. rewrite list_lookup_fmap, render_lookup.
    destruct (_steps e !! i) as [step|] eqn:Hstep; cbn.
    + symmetry. apply lookup_seq. split; [reflexivity|].
      apply lookup_lt_Some in Hstep. exact Hstep.
    + symmetry. apply lookup_seq_ge. apply lookup_ge_None in Hstep. exact Hstep.
  - apply list_eq. intros i. rewrite !list_lookup_fmap, render_lookup.
    destruct (_steps e !! i); reflexivity.
  - cbn. destruct (_dirty e); split; intros H; congruence.
  - intros click. cbn. destruct (_dirty e); [|discriminate].
    intros [= <-]. split; reflexivity.
  - intros i it Hit. rewrite render_lookup in Hit.
    destruct (_steps e !! i) as [step|] eqn:Hstep; [|discriminate].
    injection Hit as <-. cbn [on_delete render_item].
    assert (Hsteps : _steps (exec (deleteStepAt (Z.of_nat i)) e) = take i (_steps e)).
    { rewrite exec_deleteStepAt. cbn [with_dirty with_steps _steps].
      rewrite slice_prefix by lia. rewrite Nat2Z.id. reflexivity. }
    split; [exact Hsteps|].
    unfold render, render_entries. cbn [steps_container].
    rewrite !length_imap, Hsteps, length_take.
    apply lookup_lt_Some in Hstep. lia.
Qed.

Lemma render_items_and_listeners_witness :
  let it := render_item 1 (mkEntry Sample.B (Sample.offers_X_Y [Sample.A])) in
  steps_container (render Sample.editor_ABC) !! 1%nat = Some it
  /\ _steps (exec (on_delete it) Sample.editor_ABC) = [Sample.A]
  /\ dirty_icon (render Sample.editor_dirty) = Some reset
  /\ _steps (exec reset Sample.editor_dirty) = [Sample.A; Sample.B].
Proof.
  intros it.
  destruct (render_items_and_listeners Sample.editor_ABC) as (_ & _ & _ & Hdelete).
  destruct (render_items_and_listeners Sample.editor_dirty) as (_ & _ & Hclick & _).
  assert (Hit : steps_container (render Sample.editor_ABC) !! 1%nat = Some it)
    by reflexivity.
  split; [exact Hit|].
  split; [exact (proj1 (Hdelete 1%nat it Hit))|].
  split; [reflexivity|].
  exact (proj1 (Hclick reset eq_refl)).
Defined.
End RenderedEditor.

(** * Further properties of the pop-in dialog *)

Section DialogPosition.
Import Popin Page.
Implicit Types (p : PopinDialog).

Lemma ensureElementInView_style_irrelevant p st :
  exec ensureElementInView (with_style st p) = exec ensureElementInView p.
Proof. rewrite !exec_ensureElementInView. reflexivity. Qed.

Lemma ensureElementInView_twice p :
  exec ensureElementInView (exec ensureElementInView p) = exec ensureElementInView p.
Proof.
  pose proof (exec_ensureElementInView p) as Hexec. cbv zeta in Hexec.
  etransitivity; [apply (f_equal (exec ensureElementInView) Hexec)|].
  apply ensureElementInView_style_irrelevant.
Qed.

(** X10. [ensureElementInView()] starts from the place where the page puts
    the dialog: the offsets that an earlier call has left do not count, and
    a second call changes nothing. The call writes the two offsets only; it
    leaves the [hidden] attribute and the focus as they are. *)
Theorem ensureElementInView_forgets_offsets p st :
  exec ensureElementInView (with_style st p) = exec ensureElementInView p
  /\ exec (ensureElementInView ;; ensureElementInView) p = exec ensureElementInView p
  /\ attr_hidden (exec ensureElementInView p) = attr_hidden p
  /\ focused (exec ensureElementInView p) = focused p.
Proof.
  split; [apply ensureElementInView_style_irrelevant|].
  split; [rewrite exec_seq; apply ensureElementInView_twice|].
  rewrite exec_ensureElementInView. split; reflexivity.
Qed.

(** X11. For a displayed dialog whose box, measured at its place in the
    flow, is no wider and no higher than the window, [ensureElementInView()]
    aims at the point of the window that is nearest to that place: the left
    edge at the point of [0 .. innerWidth - width] nearest to the measured
    one, and the top edge likewise. It writes no offset on an axis where
    the dialog is there already, and that point as offset otherwise; the
    box then is that far from the beginning of its containing block, which
    is the point itself when the containing block begins where the window
    does. *)
Theorem ensureElementInView_moves_least p :
  visible p = true ->
  let measured := getBoundingClientRect (with_style (mkStyle None None) p) in
  width measured <= innerWidth p ->
  height measured <= innerHeight p ->
  let nearest_left := Z.max 0 (Z.min (left measured) (innerWidth p - width measured)) in
  let nearest_top := Z.max 0 (Z.min (top measured) (innerHeight p - height measured)) in
  let placed := exec ensureElementInView p in
  (style_left (style placed)
   = if nearest_left =? left measured then None else Some nearest_left)
  /\ (style_top (style placed)
      = if nearest_top =? top measured then None else Some nearest_top)
  /\ (left (getBoundingClientRect placed)
      = if nearest_left =? left measured then left measured
        else origin_left (layout p) + nearest_left)
  /\ (top (getBoundingClientRect placed)
      = if nearest_top =? top measured then top measured
        else origin_top (layout p) + nearest_top)
  /\ (aligned (layout p) ->
      left (getBoundingClientRect placed) = nearest_left
      /\ top (getBoundingClientRect placed) = nearest_top).
Proof.
  intros Hv measured Hw Hh nearest_left nearest_top placed.
  subst placed nearest_left nearest_top measured.
  rewrite exec_ensureElementInView. cbv zeta.
  unfold aligned, getBoundingClientRect, visible in *. cbn in *. rewrite Hv in *.
  unfold right, bottom. cbn in *.
  set (w := box_width (layout p) None) in *.
  set (h := box_height (layout p) None) in *.
  set (l := static_left (layout p)) in *.
  set (t := static_top (layout p)) in *.
  destruct (Z.ltb_spec l 0), (Z.gtb_spec (l + w) (innerWidth p)),
           (Z.ltb_spec t 0), (Z.gtb_spec (t + h) (innerHeight p));
    destruct (Z.eqb_spec (Z.max 0 (Z.min l (innerWidth p - w))) l);
    destruct (Z.eqb_spec (Z.max 0 (Z.min t (innerHeight p - h))) t);
    try lia;
    (split; [|split; [|split; [|split]]];
     [f_equal; lia | f_equal; lia | lia | lia | intros [Hx Hy]; lia]).
Qed.

Lemma ensureElementInView_moves_least_witness :
  visible Scenario.scrolled_dialog = true
  /\ width (getBoundingClientRect (with_style (mkStyle None None) Scenario.scrolled_dialog))
     <= innerWidth Scenario.scrolled_dialog
  /\ height (getBoundingClientRect (with_style (mkStyle None None) Scenario.scrolled_dialog))
     <= innerHeight Scenario.scrolled_dialog
  /\ style_top (style (exec ensureElementInView Scenario.scrolled_dialog)) = Some 200
  /\ top (getBoundingClientRect (exec ensureElementInView Scenario.scrolled_dialog))
     = -1000 + 200
  /\ aligned (layout Sample.small_dialog)
  /\ left (getBoundingClientRect (exec ensureElementInView Sample.small_dialog)) = 200
  /\ top (getBoundingClientRect (exec ensureElementInView Sample.small_dialog)) = 200.
Proof.
  assert (Hw : width (getBoundingClientRect
                        (with_style (mkStyle None None) Scenario.scrolled_dialog))
               <= innerWidth Scenario.scrolled_dialog) by (vm_compute; discriminate).
  assert (Hh : height (getBoundingClientRect
                         (with_style (mkStyle None None) Scenario.scrolled_dialog))
               <= innerHeight Scenario.scrolled_dialog) by (vm_compute; discriminate).
  assert (Hw' : width (getBoundingClientRect
                         (with_style (mkStyle None None) Sample.small_dialog))
                <= innerWidth Sample.small_dialog) by (vm_compute; discriminate).
  assert (Hh' : height (getBoundingClientRect
                          (with_style (mkStyle None None) Sample.small_dialog))
                <= innerHeight Sample.small_dialog) by (vm_compute; discriminate).
  assert (Haligned : aligned (layout Sample.small_dialog)) by (split; reflexivity).
  destruct (ensureElementInView_moves_least Scenario.scrolled_dialog eq_refl Hw Hh)
    as (_ & Hstyle & _ & Htop & _).
  destruct (ensureElementInView_moves_least Sample.small_dialog eq_refl Hw' Hh')
    as (_ & _ & _ & _ & Hnearest).
  split; [reflexivity|]. split; [exact Hw|]. split; [exact Hh|].
  split; [exact Hstyle|]. split; [exact Htop|]. split; [exact Haligned|].
  exact (Hnearest Haligned).
Defined.

(** X12. [ensureElementInView()] leaves both offsets empty when the box
    that it measures lies in the window: the dialog stays where the page
    puts it. This is so for a hidden dialog in any window whose width and
    height are not negative, because its box is empty; offsets that were
    there before the dialog was hidden are removed. *)
Theorem ensureElementInView_leaves_in_place p :
  inside (getBoundingClientRect (with_style (mkStyle None None) p))
         (innerWidth p) (innerHeight p) ->
  style (exec ensureElementInView p) = mkStyle None None
  /\ (visible p = false -> getBoundingClientRect (exec ensureElementInView p)
                           = mkDOMRect 0 0 0 0).
Proof.
  intros (Hl & Hr & Ht & Hb). rewrite exec_ensureElementInView. cbv zeta.
  set (rect := getBoundingClientRect _) in *.
  destruct (Z.ltb_spec (left rect) 0), (Z.gtb_spec (right rect) (innerWidth p)),
           (Z.ltb_spec (top rect) 0), (Z.gtb_spec (bottom rect) (innerHeight p));
    try lia.
  split; [reflexivity|].
  unfold getBoundingClientRect, visible. cbn. intros ->. reflexivity.
Qed.

Lemma ensureElementInView_leaves_in_place_witness :
  inside (getBoundingClientRect (with_style (mkStyle None None) Scenario.hidden_dialog))
         (innerWidth Scenario.hidden_dialog) (innerHeight Scenario.hidden_dialog)
  /\ style Scenario.hidden_dialog = mkStyle (Some 200) (Some 200)
  /\ style (exec ensureElementInView Scenario.hidden_dialog) = mkStyle None None
  /\ style (exec ensureElementInView Scenario.inner_dialog) = mkStyle None None.
Proof.
  assert (Hhidden : inside (getBoundingClientRect
                              (with_style (mkStyle None None) Scenario.hidden_dialog))
                           (innerWidth Scenario.hidden_dialog)
                           (innerHeight Scenario.hidden_dialog))
    by (vm_compute; repeat split; discriminate).
  assert (Hinner : inside (getBoundingClientRect
                             (with_style (mkStyle None None) Scenario.inner_dialog))
                          (innerWidth Scenario.inner_dialog)
                          (innerHeight Scenario.inner_dialog))
    by (vm_compute; repeat split; discriminate).
  split; [exact Hhidden|]. split; [reflexivity|].
  split; [exact (proj1 (ensureElementInView_leaves_in_place _ Hhidden))|].
  exact (proj1 (ensureElementInView_leaves_in_place _ Hinner)).
Defined.
End DialogPosition.

Section DialogVisibility.
Import Popin.
Implicit Types (p : PopinDialog).

(** X13. [keydown] does nothing for a key that is not Escape, and nothing
    when the dialog is not the element that has the focus (the focus is on
    an element of its content, say): [blur()] then has no focus to take,
    and the dialog stays displayed. *)
Theorem keydown_needs_escape_and_focus p (event : KeyboardEvent) :
  key event <> "Escape" \/ focused p = false ->
  exec (keydown event) p = p /\ visible (exec (keydown event) p) = visible p.
Proof.
  intros Hcase.
  assert (Hsame : exec (keydown event) p = p).
  { unfold keydown, when. destruct (String.eqb_spec (key event) "Escape") as [Hkey|Hkey].
    - destruct Hcase as [Hne|Hf]; [contradiction|].
      unfold blur, exec, bind, gets, when. cbn. rewrite Hf. reflexivity.
    - reflexivity. }
  rewrite Hsame. split; reflexivity.
Qed.

Lemma keydown_needs_escape_and_focus_witness :
  focused Scenario.inner_dialog = false
  /\ exec (keydown (mkKeyboardEvent "Escape")) Scenario.inner_dialog
     = Scenario.inner_dialog
  /\ exec (keydown (mkKeyboardEvent "Enter")) Sample.small_dialog = Sample.small_dialog.
Proof.
  assert (Hkey : key (mkKeyboardEvent "Enter") <> "Escape") by discriminate.
  split; [reflexivity|].
  split.
  - exact (proj1 (keydown_needs_escape_and_focus
                    Scenario.inner_dialog (mkKeyboardEvent "Escape")
                    (or_intror eq_refl))).
  - exact (proj1 (keydown_needs_escape_and_focus
                    Sample.small_dialog (mkKeyboardEvent "Enter") (or_introl Hkey))).
Defined.

(** X14. Only the removal of the [hidden] attribute shows the dialog.
    Writing the attribute, with any value, hides the dialog, and the
    property [hidden] then holds that value; [blured()] done twice is
    [blured()] done once; and removing the attribute of a dialog that is
    displayed changes nothing, so that the dialog does not take the focus
    then. *)
Theorem hidden_attribute_rules_visibility p :
  (forall value,
      visible (exec (setAttribute "hidden" value) p) = false
      /\ hidden (exec (setAttribute "hidden" value) p)
         = HiddenFromAttribute (Some value))
  /\ exec (blured ;; blured) p = exec blured p
  /\ (visible p = true -> exec (removeAttribute "hidden") p = p)
  /\ exec (removeAttribute "hidden" ;; removeAttribute "hidden") p
     = exec (removeAttribute "hidden") p.
Proof.
  split; [intros value; split; reflexivity|].
  split; [reflexivity|]. split.
  - unfold visible. destruct p as [[v|] h st fl fo iw ih]; [discriminate|reflexivity].
  - destruct p as [[v|] h st fl fo iw ih]; reflexivity.
Qed.

Lemma hidden_attribute_rules_visibility_witness :
  visible Scenario.inner_dialog = true
  /\ exec (removeAttribute "hidden") Scenario.inner_dialog = Scenario.inner_dialog
  /\ visible (exec (setAttribute "hidden" "false") Scenario.inner_dialog) = false.
Proof.
  destruct (hidden_attribute_rules_visibility Scenario.inner_dialog)
    as (Hset & _ & Hremove & _).
  split; [reflexivity|]. split; [exact (Hremove eq_refl)|].
  exact (proj1 (Hset "false")).
Defined.
End DialogVisibility.

Section DialogInPage.
Import Popin Page.
Implicit Types (p : PopinDialog) (pg : Page) (l : Listener) (ls : list Listener).

Lemma same_listener_eq l1 l2 : same_listener l1 l2 = true <-> l1 = l2.
Proof.
  destruct l1 as [|i], l2 as [|j]; cbn; split; try congruence; try discriminate.
  - intros H. apply Nat.eqb_eq in H. congruence.
  - intros [= ->]. apply Nat.eqb_refl.
Qed.

Lemma occurrences_app l ls1 ls2 :
  occurrences l (ls1 ++ ls2) = (occurrences l ls1 + occurrences l ls2)%nat.
Proof. induction ls1 as [|x ls1 IH]; cbn; [reflexivity|]. rewrite IH. lia. Qed.

Lemma occurrences_remove_first l ls :
  occurrences l (remove_first l ls) = Nat.pred (occurrences l ls).
Proof.
  induction ls as [|x ls IH]; cbn; [reflexivity|].
  destruct (same_listener x l) eqn:Hx; cbn; [reflexivity|].
  rewrite Hx. exact IH.
Qed.

Lemma occurrences_remove_first_other l m ls :
  m <> l -> occurrences m (remove_first l ls) = occurrences m ls.
Proof.
  intros Hne. induction ls as [|x ls IH]; cbn; [reflexivity|].
  destruct (same_listener x l) eqn:Hx; cbn.
  - apply same_listener_eq in Hx as ->.
    destruct (same_listener l m) eqn:Hm; [|reflexivity].
    apply same_listener_eq in Hm. congruence.
  - rewrite IH. reflexivity.
Qed.

Lemma callback_listeners (c : Callback) pg :
  (occurrences EnsureElementInView_ (resize_listeners pg) <= 1)%nat ->
  let pg' := exec (callback c) pg in
  occurrences EnsureElementInView_ (resize_listeners pg')
  = match c with Connected => 1%nat | Disconnected => 0%nat end
  /\ (forall id, occurrences (Foreign id) (resize_listeners pg')
                 = occurrences (Foreign id) (resize_listeners pg))
  /\ element pg' = element pg /\ timeouts pg' = timeouts pg.
Proof.
  intros Hocc pg'. subst pg'. destruct c.
  - unfold callback, connectedCallback, lit_connectedCallback, addEventListener,
      exec, bind, ret, modify. cbn.
    destruct (occurrences EnsureElementInView_ (resize_listeners pg))
      as [|n] eqn:Hn; cbn.
    + repeat split.
      * rewrite occurrences_app, Hn. reflexivity.
      * intros id. rewrite occurrences_app. cbn. lia.
    + rewrite Hn. repeat split. lia.
  - unfold callback, disconnectedCallback, lit_disconnectedCallback, removeEventListener,
      exec, bind, ret, modify. cbn. repeat split.
    + rewrite occurrences_remove_first. lia.
    + intros id. apply occurrences_remove_first_other. discriminate.
Qed.

(** X15. However often the element is connected to the page and
    disconnected from it, [window] has its listener once when the last
    callback was [connectedCallback()] and not at all when it was
    [disconnectedCallback()]: a second connection does not register it
    again, and one disconnection removes it. The other listeners of the
    page stay registered. *)
Theorem lifecycle_registers_listener_once (cs : list Callback) pg :
  (occurrences EnsureElementInView_ (resize_listeners pg) <= 1)%nat ->
  let pg' := exec (lifecycle cs) pg in
  occurrences EnsureElementInView_ (resize_listeners pg')
  = match last cs with
    | Some Connected => 1%nat
    | Some Disconnected => 0%nat
    | None => occurrences EnsureElementInView_ (resize_listeners pg)
    end
  /\ (forall id, occurrences (Foreign id) (resize_listeners pg')
                 = occurrences (Foreign id) (resize_listeners pg))
  /\ element pg' = element pg /\ timeouts pg' = timeouts pg.
Proof.
  revert pg. induction cs as [|c cs IH]; intros pg Hocc pg'; subst pg'.
  { repeat split. }
  cbn [lifecycle]. rewrite exec_seq.
  destruct (callback_listeners c pg Hocc) as (Hc & Hforeign & Helement & Htimeouts).
  assert (Hocc' : (occurrences EnsureElementInView_
                     (resize_listeners (exec (callback c) pg)) <= 1)%nat)
    by (rewrite Hc; destruct c; lia).
  destruct (IH (exec (callback c) pg) Hocc') as (Hlast & Hforeign' & Helement' & Htimeouts').
  split; [|split; [|split]].
  - rewrite Hlast. destruct cs as [|c' cs]; [exact Hc|].
    change (last (c :: c' :: cs)) with (last (c' :: cs)).
    destruct (last (c' :: cs)) as [[|]|] eqn:Hl; try reflexivity.
    apply last_None in Hl. discriminate.
  - intros id. rewrite Hforeign'. apply Hforeign.
  - congruence.
  - congruence.
Qed.

Lemma lifecycle_registers_listener_once_witness :
  (occurrences EnsureElementInView_ (resize_listeners Scenario.fresh_page) <= 1)%nat
  /\ resize_listeners
       (exec (lifecycle [Connected; Connected; Disconnected; Connected])
             Scenario.fresh_page)
     = [Foreign 7; EnsureElementInView_]
  /\ occurrences EnsureElementInView_
       (resize_listeners
          (exec (lifecycle [Connected; Connected; Disconnected]) Scenario.fresh_page))
     = 0%nat.
Proof.
  assert (Hocc : (occurrences EnsureElementInView_
                    (resize_listeners Scenario.fresh_page) <= 1)%nat)
    by (vm_compute; lia).
  split; [exact Hocc|]. split; [reflexivity|].
  exact (proj1 (lifecycle_registers_listener_once
                  [Connected; Connected; Disconnected] Scenario.fresh_page Hocc)).
Defined.
End DialogInPage.

Section DialogEvents.
Import Popin Page.
Implicit Types (p : PopinDialog) (pg : Page) (ls : list Listener).

Lemma exec_gets {St Ev A B} (f : St -> A) (k : A -> Prog St Ev B) (s : St) :
  exec (x <- gets f ;; k x) s = exec (k (f s)) s.
Proof.
  unfold exec, bind, gets. destruct (k (f s) s) as [[b s2] t2]. reflexivity.
Qed.

Lemma exec_lift {A} (m : Dialog A) pg :
  exec (lift m) pg = with_element (exec m (element pg)) pg.
Proof. unfold exec, lift. destruct (m (element pg)) as [[a p] t]. reflexivity. Qed.

Lemma exec_dispatch ls pg :
  exec (dispatch ls) pg =
  if (0 <? occurrences EnsureElementInView_ ls)%nat
  then with_element (exec ensureElementInView (element pg)) pg
  else pg.
Proof.
  revert pg. induction ls as [|l ls IH]; intros pg; [reflexivity|].
  cbn [dispatch occurrences]. rewrite exec_seq, IH.
  destruct l as [|id]; cbn [call same_listener].
  - rewrite exec_lift. cbn [element with_element].
    rewrite ensureElementInView_twice.
    destruct (0 <? occurrences EnsureElementInView_ ls)%nat; reflexivity.
  - destruct pg; reflexivity.
Qed.

(** X16. When the window is resized and the page is laid out again, a
    dialog whose listener is registered is placed again, for the new size
    and the new layout: it is where [ensureElementInView()] puts it then,
    which is in the new window if its box has a fixed size, no larger than
    the new window, and its containing block begins where the window does.
    A dialog whose listener is not registered keeps its offsets, whatever
    the new size. *)
Theorem resize_places_connected_dialog pg (w h : Z) (lay : Layout) :
  let resized := with_window w h lay (element pg) in
  let p' := element (exec (resize w h lay) pg) in
  (innerWidth p' = w /\ innerHeight p' = h /\ layout p' = lay)
  /\ ((0 < occurrences EnsureElementInView_ (resize_listeners pg))%nat ->
      p' = exec ensureElementInView resized
      /\ (aligned lay -> fixed_size lay ->
          width (getBoundingClientRect resized) <= w ->
          height (getBoundingClientRect resized) <= h ->
          inside (getBoundingClientRect p') w h))
  /\ (occurrences EnsureElementInView_ (resize_listeners pg) = 0%nat ->
      p' = resized /\ style p' = style (element pg)).
Proof.
  intros resized p'.
  assert (Hp' : p' = if (0 <? occurrences EnsureElementInView_ (resize_listeners pg))%nat
                     then exec ensureElementInView resized
                     else resized).
  { subst p' resized. unfold resize. rewrite exec_seq.
    rewrite exec_gets, exec_dispatch.
    change (resize_listeners (exec (modify _) pg)) with (resize_listeners pg).
    destruct (0 <? occurrences EnsureElementInView_ (resize_listeners pg))%nat;
      reflexivity. }
  split; [|split].
  - rewrite Hp'.
    destruct (0 <? occurrences EnsureElementInView_ (resize_listeners pg))%nat;
      [rewrite exec_ensureElementInView|]; repeat split.
  - intros Hpos. apply Nat.ltb_lt in Hpos. rewrite Hpos in Hp'.
    split; [exact Hp'|]. intros Haligned Hfix Hw Hh. rewrite Hp'.
    apply (ensureElementInView_inside resized); assumption.
  - intros Hzero. rewrite Hzero in Hp'. cbn in Hp'. rewrite Hp'. split; reflexivity.
Qed.

Lemma resize_places_connected_dialog_witness :
  let connected := exec connectedCallback Scenario.fresh_page in
  let lay := Scenario.layout_after_resize in
  (0 < occurrences EnsureElementInView_ (resize_listeners connected))%nat
  /\ aligned lay /\ fixed_size lay
  /\ width (getBoundingClientRect (with_window 250 120 lay (element connected))) <= 250
  /\ height (getBoundingClientRect (with_window 250 120 lay (element connected))) <= 120
  /\ getBoundingClientRect (element (exec (resize 250 120 lay) connected))
     = mkDOMRect 50 20 200 100
  /\ inside (getBoundingClientRect (element (exec (resize 250 120 lay) connected)))
            250 120
  /\ occurrences EnsureElementInView_ (resize_listeners Scenario.fresh_page) = 0%nat
  /\ getBoundingClientRect (element (exec (resize 250 120 lay) Scenario.fresh_page))
     = mkDOMRect 230 110 200 100.
Proof.
  intros connected lay.
  assert (Hpos : (0 < occurrences EnsureElementInView_ (resize_listeners connected))%nat)
    by (vm_compute; lia).
  assert (Haligned : aligned lay) by (split; reflexivity).
  assert (Hfix : fixed_size lay) by (intros offset; split; reflexivity).
  assert (Hw : width (getBoundingClientRect (with_window 250 120 lay (element connected)))
               <= 250) by (vm_compute; discriminate).
  assert (Hh : height (getBoundingClientRect (with_window 250 120 lay (element connected)))
               <= 120) by (vm_compute; discriminate).
  destruct (resize_places_connected_dialog connected 250 120 lay) as (_ & Hon & _).
  destruct (resize_places_connected_dialog Scenario.fresh_page 250 120 lay)
    as (_ & _ & Hoff).
  destruct (Hon Hpos) as (_ & Hinside).
  destruct (Hoff eq_refl) as (Hsame & _).
  split; [exact Hpos|]. split; [exact Haligned|]. split; [exact Hfix|].
  split; [exact Hw|]. split; [exact Hh|].
  split; [reflexivity|]. split; [exact (Hinside Haligned Hfix Hw Hh)|].
  split; [reflexivity|]. reflexivity.
Defined.

Lemma exec_run_timeouts (n : nat) pg :
  timeouts pg = n ->
  exec (run_timeouts n) pg =
  match n with
  | O => pg
  | S _ => with_timeouts 0 (with_element (exec ensureElementInView (element pg)) pg)
  end.
Proof.
  revert pg. induction n as [|n IH]; intros pg Hn; [reflexivity|].
  cbn [run_timeouts]. rewrite exec_seq.
  assert (Hstep : exec timeout pg
                  = with_timeouts n (with_element (exec ensureElementInView (element pg)) pg)).
  { unfold timeout. rewrite exec_gets, Hn, exec_seq, exec_lift.
    unfold exec at 2, modify, with_timeouts, with_element.
    cbn [fst snd element resize_listeners timeouts]. reflexivity. }
  rewrite Hstep, IH by reflexivity.
  destruct n as [|n]; [reflexivity|].
  unfold with_timeouts, with_element.
  cbn [element resize_listeners timeouts]. rewrite ensureElementInView_twice.
  reflexivity.
Qed.

(** X17. [render()] does not place the dialog: it leaves the element as it
    is and hands one more callback to [setTimeout]. When the pending
    callbacks have run, however many renders have left one, the dialog is
    where one [ensureElementInView()] puts it: in the window, if its box
    has a fixed size, no larger than the window, and its containing block
    begins where the window does. *)
Theorem render_places_dialog_later pg :
  let rendered := exec render pg in
  let settled := exec flush rendered in
  (element rendered = element pg /\ timeouts rendered = S (timeouts pg))
  /\ (timeouts settled = 0%nat
      /\ element settled = exec ensureElementInView (element pg)
      /\ resize_listeners settled = resize_listeners pg)
  /\ (aligned (layout (element pg)) ->
      fixed_size (layout (element pg)) ->
      width (getBoundingClientRect (element pg)) <= innerWidth (element pg) ->
      height (getBoundingClientRect (element pg)) <= innerHeight (element pg) ->
      inside (getBoundingClientRect (element settled))
             (innerWidth (element pg)) (innerHeight (element pg))).
Proof.
  intros rendered settled.
  assert (Hrendered : rendered = with_timeouts (S (timeouts pg)) pg) by reflexivity.
  assert (Hsettled : settled
                     = with_timeouts 0 (with_element (exec ensureElementInView (element pg))
                                                     rendered)).
  { subst settled. unfold flush.
    rewrite exec_gets.
    rewrite (exec_run_timeouts (timeouts rendered) rendered eq_refl).
    rewrite Hrendered. reflexivity. }
  split; [rewrite Hrendered; split; reflexivity|].
  split; [rewrite Hsettled, Hrendered; repeat split|].
  intros Haligned Hfix Hw Hh. rewrite Hsettled. cbn [element with_timeouts with_element].
  apply ensureElementInView_inside; assumption.
Qed.

Lemma render_places_dialog_later_witness :
  let page := Scenario.fresh_page in
  aligned (layout (element page)) /\ fixed_size (layout (element page))
  /\ width (getBoundingClientRect (element page)) <= innerWidth (element page)
  /\ height (getBoundingClientRect (element page)) <= innerHeight (element page)
  /\ getBoundingClientRect (element (exec (render ;; render) page))
     = mkDOMRect 350 250 200 100
  /\ getBoundingClientRect (element (exec flush (exec render page)))
     = mkDOMRect 200 200 200 100
  /\ inside (getBoundingClientRect (element (exec flush (exec render page)))) 400 300.
Proof.
  intros page.
  assert (Haligned : aligned (layout (element page))) by (split; reflexivity).
  assert (Hfix : fixed_size (layout (element page))) by (intros offset; split; reflexivity).
  assert (Hw : width (getBoundingClientRect (element page)) <= innerWidth (element page))
    by (vm_compute; discriminate).
  assert (Hh : height (getBoundingClientRect (element page)) <= innerHeight (element page))
    by (vm_compute; discriminate).
  destruct (render_places_dialog_later page) as (_ & _ & Hinside).
  split; [exact Haligned|]. split; [exact Hfix|].
  split; [exact Hw|]. split; [exact Hh|]. split; [reflexivity|]. split; [reflexivity|].
  exact (Hinside Haligned Hfix Hw Hh).
Defined.

(** X18. On a page where the containing block of the dialog begins where
    the window does (the page is not scrolled and no positioned ancestor
    is away from its corner), a dialog of fixed size that is no wider and
    no higher than the window lies in the window after
    [ensureElementInView()], wherever the page puts it and whatever
    offsets it had, and its size is the one from before the call. *)
Theorem ensureElementInView_in_view_on_aligned_page p :
  aligned (layout p) ->
  fixed_size (layout p) ->
  let before := getBoundingClientRect p in
  let after := getBoundingClientRect (exec ensureElementInView p) in
  width before <= innerWidth p ->
  height before <= innerHeight p ->
  0 <= left after /\ right after <= innerWidth p
  /\ 0 <= top after /\ bottom after <= innerHeight p
  /\ width after = width before /\ height after = height before.
Proof.
  intros Haligned Hfix before after Hw Hh. subst before after.
  destruct (ensureElementInView_inside p Haligned Hfix Hw Hh)
    as ((Hl & Hr & Ht & Hb) & Hwidth & Hheight).
  repeat split; assumption.
Qed.

Lemma ensureElementInView_in_view_on_aligned_page_witness :
  let after := getBoundingClientRect (exec ensureElementInView Sample.small_dialog) in
  aligned (layout Sample.small_dialog) /\ fixed_size (layout Sample.small_dialog)
  /\ width (getBoundingClientRect Sample.small_dialog) <= innerWidth Sample.small_dialog
  /\ height (getBoundingClientRect Sample.small_dialog) <= innerHeight Sample.small_dialog
  /\ after = mkDOMRect 200 200 200 100
  /\ 0 <= left after /\ right after <= 400 /\ 0 <= top after /\ bottom after <= 300.
Proof.
  intros after.
  assert (Haligned : aligned (layout Sample.small_dialog)) by (split; reflexivity).
  assert (Hfix : fixed_size (layout Sample.small_dialog))
    by (intros offset; split; reflexivity).
  assert (Hw : width (getBoundingClientRect Sample.small_dialog)
               <= innerWidth Sample.small_dialog) by (vm_compute; discriminate).
  assert (Hh : height (getBoundingClientRect Sample.small_dialog)
               <= innerHeight Sample.small_dialog) by (vm_compute; discriminate).
  destruct (ensureElementInView_in_view_on_aligned_page
              Sample.small_dialog Haligned Hfix Hw Hh)
    as (Hleft & Hright & Htop & Hbottom & _).
  split; [exact Haligned|]. split; [exact Hfix|].
  split; [exact Hw|]. split; [exact Hh|]. split; [reflexivity|].
  split; [exact Hleft|]. split; [exact Hright|]. split; [exact Htop|exact Hbottom].
Defined.
End DialogEvents.
